(** * couchdb-nano-wrapper: a shallow embedding and its properties

    The wrapper (couchdb-nano-wrapper.js) is a thin layer of builder
    functions over the nano CouchDB client.  Every operation issues
    transport requests whose completion callbacks run on a later turn of
    the event loop and settle q deferreds.

    The embedding has three layers:
    - JavaScript values as far as the wrapper looks into them (truthiness,
      property reads and writes, [hasOwnProperty], [indexOf]), over the
      built-in library of the engine, which is a parameter;
    - a world in which requests are logged, callbacks wait for their
      response, and q deferreds are settled;
    - the wrapper's functions, one definition per source function, and the
      callbacks they pass to nano, one constructor of [Kont] per function
      literal.

    [init] is taken to have run, so that [nano] is bound to a client. *)

From stdpp Require Import base list sets strings.
From Stdlib Require Import ZArith DecimalString.

Open Scope string_scope.
Open Scope list_scope.
Set Warnings "-register-all,-clear-no-such-hyp".

(** ** JavaScript values

    A string stands for the JavaScript string with the same code units,
    one character per UTF-16 unit: strings hold units below 256, and
    [String.length] is the JavaScript [length].  The one-unit string of
    code 233 is [String (Ascii.ascii_of_nat 233) EmptyString]; a literal
    typed with that letter is the two units of its UTF-8 bytes.
    [JBuiltin name] is a
    function or an object of the engine's built-in library, such as
    [Object.prototype.hasOwnProperty]. *)

Inductive JValue : Type :=
  | JUndefined
  | JNull
  | JBool (b : bool)
  | JNum (n : Z)
  | JStr (s : string)
  | JArr (elems : list JValue)
  | JObj (props : list (string * JValue))
  | JBuiltin (name : string).

Inductive Exn : Type :=
  | TypeError.

(** Outcome of evaluating an expression or a function body. *)
Inductive Completion (A : Type) : Type :=
  | Normal (a : A)
  | Throw (e : Exn).
Arguments Normal {A} a.
Arguments Throw {A} e.

Definition cbind {A B} (c : Completion A) (k : A -> Completion B) : Completion B :=
  match c with
  | Normal a => k a
  | Throw e => Throw e
  end.

Notation "'let*' x ':=' c 'in' k" := (cbind c (fun x => k))
  (at level 10, x name, c at level 100, k at level 200).

(** ToBoolean. *)
Definition truthy (v : JValue) : bool :=
  match v with
  | JUndefined | JNull => false
  | JBool b => b
  | JNum n => negb (n =? 0)%Z
  | JStr s => negb (String.eqb s "")
  | JArr _ | JObj _ | JBuiltin _ => true
  end.

Definition nullish (v : JValue) : bool :=
  match v with
  | JUndefined | JNull => true
  | _ => false
  end.

Definition is_array (v : JValue) : bool :=
  match v with
  | JArr _ => true
  | _ => false
  end.

(** The decimal spelling of an array index. *)
Definition index_key (n : nat) : string :=
  NilZero.string_of_uint (Nat.to_uint n).

(** A property name is an array index when it is the canonical decimal
    spelling of a number. *)
Definition array_index (k : string) : option nat :=
  match NilZero.uint_of_string k with
  | Some u =>
      let n := Nat.of_uint u in
      if String.eqb (index_key n) k then Some n else None
  | None => None
  end.

(** Own properties of an object: the first binding of a name counts. *)
Definition lookup_prop (k : string) (ps : list (string * JValue)) : JValue :=
  match find (fun p => String.eqb (fst p) k) ps with
  | Some p => snd p
  | None => JUndefined
  end.

Definition has_prop (k : string) (ps : list (string * JValue)) : bool :=
  existsb (fun p => String.eqb (fst p) k) ps.

(** [o[k] = v] on the property list of [o]. *)
Fixpoint set_prop (k : string) (v : JValue) (ps : list (string * JValue))
  : list (string * JValue) :=
  match ps with
  | [] => [(k, v)]
  | p :: ps' =>
      if String.eqb (fst p) k then (k, v) :: ps' else p :: set_prop k v ps'
  end.

(** The own property [k] of [v], when it has one. *)
Definition own_prop (v : JValue) (k : string) : option JValue :=
  match v with
  | JObj ps => if has_prop k ps then Some (lookup_prop k ps) else None
  | JArr l =>
      if String.eqb k "length" then Some (JNum (Z.of_nat (length l)))
      else match array_index k with
           | Some n => l !! n
           | None => None
           end
  | JStr s =>
      if String.eqb k "length" then Some (JNum (Z.of_nat (String.length s)))
      else match array_index k with
           | Some n =>
               match String.get n s with
               | Some c => Some (JStr (String c EmptyString))
               | None => None
               end
           | None => None
           end
  | _ => None
  end.

(** What [Object.prototype.hasOwnProperty] answers. *)
Definition has_own (v : JValue) (k : string) : bool :=
  match own_prop v k with
  | Some _ => true
  | None => false
  end.

Definition hasOwnProperty : JValue :=
  JBuiltin "Object.prototype.hasOwnProperty".

(** The built-in library of the engine the wrapper runs on, which is not
    part of the repository.  [inherited v k] is what reading [k] on [v]
    finds along the prototype chain when [v] has no own property [k],
    [undefined] when it finds nothing; [call f this args] is the result
    of calling the built-in [f].  [Object.prototype.hasOwnProperty] and
    the [indexOf] of arrays and strings, which every edition of the
    language has, are modelled directly. *)
Class Engine : Type := mkEngine {
  inherited : JValue -> string -> JValue;
  call : JValue -> JValue -> list JValue -> Completion JValue
}.

(** An engine to evaluate examples on: the prototypes of ECMAScript 5.
    No example calls a built-in through [call]. *)
Definition object_prototype : list string :=
  ["constructor"; "toString"; "toLocaleString"; "valueOf"; "hasOwnProperty";
   "isPrototypeOf"; "propertyIsEnumerable"; "__proto__"; "__defineGetter__";
   "__defineSetter__"; "__lookupGetter__"; "__lookupSetter__"].

Definition array_prototype : list string :=
  ["constructor"; "toString"; "toLocaleString"; "concat"; "join"; "pop";
   "push"; "reverse"; "shift"; "slice"; "sort"; "splice"; "unshift";
   "indexOf"; "lastIndexOf"; "every"; "some"; "forEach"; "map"; "filter";
   "reduce"; "reduceRight"].

Definition string_prototype : list string :=
  ["constructor"; "toString"; "valueOf"; "charAt"; "charCodeAt"; "concat";
   "indexOf"; "lastIndexOf"; "localeCompare"; "match"; "replace"; "search";
   "slice"; "split"; "substring"; "substr"; "toLowerCase";
   "toLocaleLowerCase"; "toUpperCase"; "toLocaleUpperCase"; "trim"].

Definition number_prototype : list string :=
  ["constructor"; "toString"; "toLocaleString"; "valueOf"; "toFixed";
   "toExponential"; "toPrecision"].

Definition boolean_prototype : list string :=
  ["constructor"; "toString"; "valueOf"].

Definition function_prototype : list string :=
  ["constructor"; "toString"; "apply"; "call"; "bind"; "length"; "name"].

Definition es5_inherited (v : JValue) (k : string) : JValue :=
  let '(proto, names) :=
    match v with
    | JArr _ => ("Array.prototype.", array_prototype)
    | JStr _ => ("String.prototype.", string_prototype)
    | JNum _ => ("Number.prototype.", number_prototype)
    | JBool _ => ("Boolean.prototype.", boolean_prototype)
    | JBuiltin _ => ("Function.prototype.", function_prototype)
    | _ => ("Object.prototype.", object_prototype)
    end in
  if bool_decide (k ∈ names) then JBuiltin (proto +:+ k)
  else if bool_decide (k ∈ object_prototype) then JBuiltin ("Object.prototype." +:+ k)
  else JUndefined.

Definition sample_engine : Engine :=
  mkEngine es5_inherited (fun _ _ _ => Normal JUndefined).

Section Wrapper.
Context {engine : Engine}.

(** [v[k]]: reading a property throws on [undefined] and [null]; an own
    property comes first, then the prototype chain. *)
Definition get_prop (v : JValue) (k : string) : Completion JValue :=
  match v with
  | JUndefined | JNull => Throw TypeError
  | _ =>
      match own_prop v k with
      | Some x => Normal x
      | None =>
          if String.eqb k "hasOwnProperty" then Normal hasOwnProperty
          else Normal (inherited v k)
      end
  end.

(** [f.call(this, args)]: only a function can be called. *)
Definition call_value (f this : JValue) (args : list JValue)
  : Completion JValue :=
  match f with
  | JBuiltin name =>
      if String.eqb name "Object.prototype.hasOwnProperty" then
        match args with
        | JStr k :: _ => Normal (JBool (has_own this k))
        | _ => call f this args
        end
      else call f this args
  | _ => Throw TypeError
  end.

(** [o.hasOwnProperty(k)] as a condition. *)
Definition has_own_property (o : JValue) (k : string) : Completion bool :=
  let* m := get_prop o "hasOwnProperty" in
  let* r := call_value m o [JStr k] in
  Normal (truthy r).

(** The names a [for (k in v)] loop visits: the enumerable own
    properties (the built-in prototypes have no enumerable ones). *)
Definition own_keys (v : JValue) : list string :=
  match v with
  | JObj ps => map fst ps
  | JArr l => map index_key (seq 0 (length l))
  | JStr s => map index_key (seq 0 (String.length s))
  | _ => []
  end.

(** [===] between a value supplied by the caller and a value parsed from a
    response: objects and arrays are compared by identity, and the two
    never share one. *)
Definition strict_eq (a b : JValue) : bool :=
  match a, b with
  | JUndefined, JUndefined => true
  | JNull, JNull => true
  | JBool x, JBool y => Bool.eqb x y
  | JNum x, JNum y => (x =? y)%Z
  | JStr x, JStr y => String.eqb x y
  | _, _ => false
  end.

Fixpoint index_from (needle : JValue) (l : list JValue) (i : Z) : Z :=
  match l with
  | [] => (-1)%Z
  | x :: l' => if strict_eq x needle then i else index_from needle l' (i + 1)%Z
  end.

(** [hay.indexOf(needle)] with a string needle.  Arrays search for a
    strictly equal element, strings for a substring; on anything else
    the method is whatever the property read finds. *)
Definition js_indexOf (hay : JValue) (needle : string) : Completion JValue :=
  match hay with
  | JArr l => Normal (JNum (index_from (JStr needle) l 0%Z))
  | JStr s =>
      match String.index 0 needle s with
      | Some n => Normal (JNum (Z.of_nat n))
      | None => Normal (JNum (-1)%Z)
      end
  | _ =>
      let* m := get_prop hay "indexOf" in
      call_value m hay [JStr needle]
  end.

(** ** extractIds (lines 14-25) *)

(** The body of the [for] loop, [n] iterations left, [i] the loop index. *)
Fixpoint extractIds_loop (n : nat) (data : list JValue) (fieldName : string)
    (i : nat) (store : list JValue) : Completion (list JValue) :=
  match n with
  | O => Normal store
  | S n' =>
      let row := nth i data JUndefined in
      let* v :=
        (let* a := get_prop row fieldName in
         if truthy a then Normal a
         else let* w := get_prop row "value" in get_prop w fieldName) in
      extractIds_loop n' data fieldName (S i) (store ++ [v])
  end.

(** [fieldName || 'id'], for an argument that is left out or a string. *)
Definition field_or_id (fieldName : option string) : string :=
  match fieldName with
  | Some s => if truthy (JStr s) then s else "id"
  | None => "id"
  end.

Definition extractIds (data : list JValue) (fieldName : option string)
  : Completion (list JValue) :=
  let store := [] in
  let fieldName := field_or_id fieldName in
  extractIds_loop (length data) data fieldName 0 store.

(** ** Configuration and getDbName (lines 33-39) *)

Record Config : Type := mkConfig {
  prefix : option string   (* config.db.prefix *)
}.

Definition getDbName (config : Config) (dbName : string) : string :=
  match prefix config with
  | Some p => if truthy (JStr p) then p +:+ dbName else dbName
  | None => dbName
  end.

(** ** The transport client

    A request is a call of one of nano's functions; the callback passed
    with it is kept apart, in [Kont]. *)

Inductive Request : Type :=
  | DbDestroy (dbName : string)
  | DbCreate (dbName : string)
  | DbList
  | DocInsert (dbName : string) (doc : JValue) (docName : option JValue)
  | DocGet (dbName : string) (id : string) (params : option JValue)
  | DocList (dbName : string)
  | DocView (dbName : string) (args : list JValue)
  | DocDestroy (dbName : string) (id : string) (rev : JValue).

(** What nano hands to a callback: [(error, body)]. *)
Record Response : Type := mkResponse {
  error : JValue;
  body : JValue
}.

(** The function literals the wrapper passes as callbacks, each with the
    variables it closes over. *)
Inductive Kont : Type :=
  | KDbDestroy (defer : nat)                    (* lines 54-63 *)
  | KInsert (defer : nat)                       (* lines 107-116 *)
  | KGet (defer : nat)                          (* lines 150-157 *)
  | KGetList (defer : nat)                      (* lines 178-185 *)
  | KDbCreate (creating : nat)                  (* lines 205-212 *)
  | KAddDesign (defer : nat)                    (* lines 256-263 *)
  | KDbList (defer : nat) (dbName : string)     (* lines 297-300 *)
  | KView (defer : nat)                         (* lines 334-340 *)
  | KRevInfo (dbName docId : string) (defer : nat)  (* lines 364-376 *)
  | KDocDestroy (defer : nat).                  (* lines 369-375 *)

(** ** q deferreds *)

Inductive PState : Type :=
  | Pending
  | Resolved (v : JValue)
  | Rejected (e : JValue).

(** The world of one invocation of an operation: the requests issued so
    far, the callback waiting for each of them ([None] once it has run),
    the deferreds in creation order, the [q.all] aggregate, and the
    variables the invocation's closures share ([dbList] of checkDbExists,
    [index] of insert). *)
Record World : Type := mkWorld {
  requests : list Request;
  waiting : list (option Kont);
  defers : list PState;
  joined : option (list nat);
  aggregate : PState;
  dbList : JValue;
  index : Z;
  console : list JValue;
  uncaught : list Exn
}.

Definition init_world : World :=
  mkWorld [] [] [] None Pending JUndefined 0%Z [] [].

Definition set_waiting (ks : list (option Kont)) (w : World) : World :=
  mkWorld (requests w) ks (defers w) (joined w) (aggregate w)
          (dbList w) (index w) (console w) (uncaught w).

Definition set_defers (ds : list PState) (w : World) : World :=
  mkWorld (requests w) (waiting w) ds (joined w) (aggregate w)
          (dbList w) (index w) (console w) (uncaught w).

Definition set_aggregate (a : PState) (w : World) : World :=
  mkWorld (requests w) (waiting w) (defers w) (joined w) a
          (dbList w) (index w) (console w) (uncaught w).

Definition set_joined (ms : list nat) (w : World) : World :=
  mkWorld (requests w) (waiting w) (defers w) (Some ms) (aggregate w)
          (dbList w) (index w) (console w) (uncaught w).

Definition set_dbList (v : JValue) (w : World) : World :=
  mkWorld (requests w) (waiting w) (defers w) (joined w) (aggregate w)
          v (index w) (console w) (uncaught w).

Definition set_index (n : Z) (w : World) : World :=
  mkWorld (requests w) (waiting w) (defers w) (joined w) (aggregate w)
          (dbList w) n (console w) (uncaught w).

Definition console_log (v : JValue) (w : World) : World :=
  mkWorld (requests w) (waiting w) (defers w) (joined w) (aggregate w)
          (dbList w) (index w) (console w ++ [v]) (uncaught w).

(** An exception that leaves a callback: nothing catches it. *)
Definition raise (e : Exn) (w : World) : World :=
  mkWorld (requests w) (waiting w) (defers w) (joined w) (aggregate w)
          (dbList w) (index w) (console w) (uncaught w ++ [e]).

(** Calling nano: the request goes out, the callback waits. *)
Definition issue (r : Request) (k : Kont) (w : World) : World :=
  mkWorld (requests w ++ [r]) (waiting w ++ [Some k]) (defers w) (joined w)
          (aggregate w) (dbList w) (index w) (console w) (uncaught w).

(** [q.defer()]. *)
Definition q_defer (w : World) : nat * World :=
  (length (defers w), set_defers (defers w ++ [Pending]) w).

(** The fulfilment values of [ms], when all of them are fulfilled. *)
Fixpoint collect (ds : list PState) (ms : list nat) : option (list JValue) :=
  match ms with
  | [] => Some []
  | m :: ms' =>
      match ds !! m with
      | Some (Resolved v) =>
          match collect ds ms' with
          | Some vs => Some (v :: vs)
          | None => None
          end
      | _ => None
      end
  end.

(** The rejection reason of the first rejected member of [ms]. *)
Fixpoint first_rejected (ds : list PState) (ms : list nat) : option JValue :=
  match ms with
  | [] => None
  | m :: ms' =>
      match ds !! m with
      | Some (Rejected e) => Some e
      | _ => first_rejected ds ms'
      end
  end.

(** What the aggregate of [q.all] does when member [d] settles with [o]:
    reject with the first reason that arrives, fulfil with the array of
    values once every member is fulfilled. *)
Definition notify_all (d : nat) (o : PState) (w : World) : World :=
  match joined w with
  | Some ms =>
      if bool_decide (d ∈ ms) then
        match aggregate w with
        | Pending =>
            match o with
            | Rejected e => set_aggregate (Rejected e) w
            | Resolved _ =>
                match collect (defers w) ms with
                | Some vs => set_aggregate (Resolved (JArr vs)) w
                | None => w
                end
            | Pending => w
            end
        | _ => w
        end
      else w
  | None => w
  end.

(** A deferred settles once; later calls do nothing. *)
Definition settle (d : nat) (o : PState) (w : World) : World :=
  match defers w !! d with
  | Some Pending => notify_all d o (set_defers (<[d:=o]> (defers w)) w)
  | _ => w
  end.

Definition q_resolve (d : nat) (v : JValue) : World -> World :=
  settle d (Resolved v).

Definition q_reject (d : nat) (e : JValue) : World -> World :=
  settle d (Rejected e).

(** [q.all(ms)]. *)
Definition q_all (ms : list nat) (w : World) : World :=
  let w := set_joined ms w in
  match first_rejected (defers w) ms with
  | Some e => set_aggregate (Rejected e) w
  | None =>
      match collect (defers w) ms with
      | Some vs => set_aggregate (Resolved (JArr vs)) w
      | None => set_aggregate Pending w
      end
  end.

(** The promise an operation returns. *)
Inductive Promise : Type :=
  | PDefer (d : nat)
  | PAll.

Definition promise_state (p : Promise) (w : World) : PState :=
  match p with
  | PDefer d => default Pending (defers w !! d)
  | PAll => aggregate w
  end.

(** ** Callbacks *)

(** The shape most callbacks share:
    [if (error) { reject(error); return; } resolve(body);] *)
Definition reject_or_resolve (d : nat) (r : Response) (w : World) : World :=
  if truthy (error r) then q_reject d (error r) w
  else q_resolve d (body r) w.

(** [runChecks] of checkDbExists (lines 280-282). *)
Definition runChecks (d : nat) (dbName : string) (w : World) : World :=
  match js_indexOf (dbList w) dbName with
  | Normal i => q_resolve d (JBool (negb (strict_eq i (JNum (-1)%Z)))) w
  | Throw e => raise e w
  end.

(** Running a callback on the response to its request. *)
Definition run_kont (k : Kont) (r : Response) (w : World) : World :=
  match k with
  | KDbDestroy d =>
      if truthy (error r) then console_log (JStr "error") (q_reject d (error r) w)
      else q_resolve d JUndefined w
  | KInsert d =>
      if truthy (error r) then console_log (error r) (q_reject d (error r) w)
      else let w := q_resolve d (body r) w in
           set_index (index w + 1)%Z w
  | KGet d => reject_or_resolve d r w
  | KGetList d => reject_or_resolve d r w
  | KDbCreate d =>
      if truthy (error r) then q_reject d (error r) w
      else q_resolve d JUndefined w
  | KAddDesign d =>
      if negb (truthy (error r)) then q_resolve d (body r) w
      else q_reject d (error r) w
  | KDbList d dbName =>
      let w := set_dbList (body r) w in
      runChecks d dbName w
  | KView d => reject_or_resolve d r w
  | KRevInfo dbName docId d =>
      if truthy (error r) then q_reject d (error r) w
      else match get_prop (body r) "_rev" with
           | Normal rev => issue (DocDestroy dbName docId rev) (KDocDestroy d) w
           | Throw e => raise e w
           end
  | KDocDestroy d => reject_or_resolve d r w
  end.

(** The response to request number [i] arrives.  nano calls a callback
    at most once: a second response to the same request, or one to a
    request that was never issued, changes nothing. *)
Definition deliver (i : nat) (r : Response) (w : World) : World :=
  match waiting w !! i with
  | Some (Some k) => run_kont k r (set_waiting (<[i:=None]> (waiting w)) w)
  | _ => w
  end.

(** A schedule: the responses in the order in which they arrive. *)
Definition run (sched : list (nat * Response)) (w : World) : World :=
  fold_left (fun w ir => deliver (fst ir) (snd ir) w) sched w.

(** ** The operations *)

Definition dquote : string :=
  String (Ascii.Ascii false true false false false true false false) EmptyString.

(** destroy (lines 47-66). *)
Definition destroy (config : Config) (dbName : string) : Promise * World :=
  let '(defer, w) := q_defer init_world in
  let dbName := getDbName config dbName in
  let w := console_log (JStr ("Destroying db " +:+ dquote +:+ dbName +:+ dquote)) w in
  let w := issue (DbDestroy dbName) (KDbDestroy defer) w in
  (PDefer defer, w).

(** insert (lines 81-133): the builder holds [items] and [keyName]. *)
Record InsertBuilder : Type := mkInsertBuilder {
  items : list JValue;
  keyName : JValue
}.

Definition insert (items : JValue) : InsertBuilder :=
  let items := match items with
               | JArr l => l
               | _ => [items]
               end in
  mkInsertBuilder items JUndefined.

Definition withKey (_keyName : JValue) (b : InsertBuilder) : InsertBuilder :=
  mkInsertBuilder (items b) _keyName.

(** The arguments of [database.insert] after the callback is taken out:
    [args.splice(1, 0, keyName)] puts [keyName] after the item. *)
Definition insert_docName (keyName : JValue) : option JValue :=
  if truthy keyName then Some keyName else None.

(** One turn of [items.forEach] (lines 103-126). *)
Definition insert_item (dbName : string) (keyName : JValue)
    (acc : list nat * World) (item : JValue) : list nat * World :=
  let '(inserting, w) := acc in
  let '(defer, w) := q_defer w in
  let inserting := inserting ++ [defer] in
  let w := issue (DocInsert dbName item (insert_docName keyName)) (KInsert defer) w in
  (inserting, w).

Definition into (config : Config) (dbName : string) (b : InsertBuilder)
  : Promise * World :=
  let w := set_index 0%Z init_world in
  let inserting := [] in
  let dbName := getDbName config dbName in
  let '(inserting, w) :=
    fold_left (insert_item dbName (keyName b)) (items b) (inserting, w) in
  (PAll, q_all inserting w).

(** get (lines 141-162). *)
Definition get_from (config : Config) (_id : string) (dbName : string)
  : Promise * World :=
  let '(defer, w) := q_defer init_world in
  let dbName := getDbName config dbName in
  let w := issue (DocGet dbName _id None) (KGet defer) w in
  (PDefer defer, w).

(** getList (lines 169-190). *)
Definition getList_from (config : Config) (dbName : string) : Promise * World :=
  let '(defer, w) := q_defer init_world in
  let dbName := getDbName config dbName in
  let w := issue (DocList dbName) (KGetList defer) w in
  (PDefer defer, w).

(** create (lines 198-215). *)
Definition create (config : Config) (dbName : string) : Promise * World :=
  let '(creating, w) := q_defer init_world in
  let dbName := getDbName config dbName in
  let w := console_log (JStr ("Creating db " +:+ dquote +:+ dbName +:+ dquote)) w in
  let w := issue (DbCreate dbName) (KDbCreate creating) w in
  (PDefer creating, w).

(** [o[k] = v] on the property list of an object that inherits from
    [Object.prototype]: under the name [__proto__] an object value
    becomes the prototype and no own property is added. *)
Definition assign_prop (k : string) (v : JValue) (ps : list (string * JValue))
  : list (string * JValue) :=
  if String.eqb k "__proto__" then ps else set_prop k v ps.

(** addDesign (lines 228-268).  The body of the [if] in the [for ... in]
    loop: the entry stored under [design.views[viewMap]] is the object
    that the [reduce] assignment then writes to. *)
Definition design_view (viewMaps : JValue) (views : list (string * JValue))
    (viewMap : string) : Completion (list (string * JValue)) :=
  let* def := get_prop viewMaps viewMap in
  let* map_ := get_prop def "map" in
  let entry := [("map", map_)] in
  let* reduce := get_prop def "reduce" in
  let entry := if truthy reduce then set_prop "reduce" reduce entry else entry in
  Normal (assign_prop viewMap (JObj entry) views).

Fixpoint design_views (viewMaps : JValue) (keys : list string)
    (views : list (string * JValue)) : Completion (list (string * JValue)) :=
  match keys with
  | [] => Normal views
  | viewMap :: keys' =>
      let* own := has_own_property viewMaps viewMap in
      let* views := if own then design_view viewMaps views viewMap
                    else Normal views in
      design_views viewMaps keys' views
  end.

Definition addDesign_to (config : Config) (designName : string)
    (viewMaps : JValue) (dbName : string) : Completion (Promise * World) :=
  let '(defer, w) := q_defer init_world in
  let dbName := getDbName config dbName in
  let* views := design_views viewMaps (own_keys viewMaps) [] in
  let design := JObj [("language", JStr "javascript"); ("views", JObj views)] in
  let w := console_log (JStr ("Adding design " +:+ designName)) w in
  let w := issue (DocInsert dbName design (Some (JStr ("_design/" +:+ designName))))
                 (KAddDesign defer) w in
  Normal (PDefer defer, w).

(** checkDbExists (lines 277-305).  One turn of [dbNames.forEach]. *)
Definition checkDbExists_name (acc : list nat * World) (dbName : string)
  : list nat * World :=
  let '(promises, w) := acc in
  let '(defer, w) := q_defer w in
  let promises := promises ++ [defer] in
  let w := if truthy (dbList w) then runChecks defer dbName w
           else issue DbList (KDbList defer dbName) w in
  (promises, w).

Definition checkDbExists (dbNames : string + list string) : Promise * World :=
  let w := set_dbList JUndefined init_world in
  let promises := [] in
  let dbNames := match dbNames with
                 | inl dbName => [dbName]
                 | inr l => l
                 end in
  let '(promises, w) := fold_left checkDbExists_name dbNames (promises, w) in
  (PAll, q_all promises w).

(** getView (lines 316-347): the builder holds [args]. *)
Record ViewBuilder : Type := mkViewBuilder {
  args : list JValue
}.

Definition getView (designName viewName : string) : ViewBuilder :=
  mkViewBuilder [JStr designName; JStr viewName].

Definition withParams (params : JValue) (b : ViewBuilder) : ViewBuilder :=
  if truthy params then mkViewBuilder (args b ++ [params]) else b.

Definition getView_from (config : Config) (dbName : string) (b : ViewBuilder)
  : Promise * World :=
  let '(defer, w) := q_defer init_world in
  let dbName := getDbName config dbName in
  let w := issue (DocView dbName (args b)) (KView defer) w in
  (PDefer defer, w).

(** deleteDoc (lines 357-381).  [config] is in scope, as for every
    function of the module; the body does not read it. *)
Definition deleteDoc_from (config : Config) (docId : string) (dbName : string)
  : Promise * World :=
  let '(defer, w) := q_defer init_world in
  let w := issue (DocGet dbName docId (Some (JObj [("revs_info", JBool true)])))
                 (KRevInfo dbName docId defer) w in
  (PDefer defer, w).

(** init (lines 383-386): the location the nano client is created with. *)
Definition init_dbLocation (options : JValue) : Completion JValue :=
  let* url := get_prop options "url" in
  let dbLocation := if truthy url then url else JStr "http://localhost:5984" in
  Normal dbLocation.

(** The state of an operation's promise after a schedule. *)
Definition outcome (op : Promise * World) (sched : list (nat * Response)) : PState :=
  promise_state (fst op) (run sched (snd op)).

(** The requests an operation has issued after a schedule. *)
Definition issued (op : Promise * World) (sched : list (nat * Response))
  : list Request :=
  requests (run sched (snd op)).

Definition ok (b : JValue) : Response := mkResponse JNull b.
Definition failed (e : JValue) : Response := mkResponse e JUndefined.

(** ** Vocabulary of the statements *)

(** Every request [i] of [order] is answered, in that order, by [resp i]. *)
Definition answers (resp : nat -> Response) (order : list nat)
  : list (nat * Response) :=
  map (fun i => (i, resp i)) order.

(** Two worlds agree on requests, callbacks and promises. *)
Definition same_promises (w1 w2 : World) : Prop :=
  requests w1 = requests w2 /\ waiting w1 = waiting w2 /\
  defers w1 = defers w2 /\ joined w1 = joined w2 /\
  aggregate w1 = aggregate w2.

(** What the callback of one insert does to its deferred. *)
Definition insert_result (r : Response) : PState :=
  if truthy (error r) then Rejected (error r) else Resolved (body r).

(** What the callback of one list request does to its deferred;
    [Pending] when [runChecks] throws. *)
Definition check_result (dbName : string) (r : Response) : PState :=
  match js_indexOf (body r) dbName with
  | Normal i => Resolved (JBool (negb (strict_eq i (JNum (-1)%Z))))
  | Throw _ => Pending
  end.

(** The first rejection among the first [k] requests, in arrival order. *)
Fixpoint first_rej (k : nat) (res : nat -> PState) (hist : list nat)
  : option JValue :=
  match hist with
  | [] => None
  | i :: hist' =>
      if (i <? k)%nat then
        match res i with
        | Rejected e => Some e
        | _ => first_rej k res hist'
        end
      else first_rej k res hist'
  end.

(** A fan-out of [k] requests, request [i] settling deferred [i] through
    callback [kont i], joined by [q.all], after the responses [hist]. *)
Definition fan_inv (k : nat) (kont : nat -> Kont) (res : nat -> PState)
    (hist : list nat) (w : World) : Prop :=
  joined w = Some (seq 0 k) /\
  length (waiting w) = k /\
  length (defers w) = k /\
  (forall i, (i < k)%nat ->
     if bool_decide (i ∈ hist)
     then waiting w !! i = Some None /\ defers w !! i = Some (res i)
     else waiting w !! i = Some (Some (kont i)) /\ defers w !! i = Some Pending) /\
  aggregate w =
    match first_rej k res hist with
    | Some e => Rejected e
    | None =>
        match collect (defers w) (seq 0 k) with
        | Some vs => Resolved (JArr vs)
        | None => Pending
        end
    end.

(** The value extractIds is meant to store for a row:
    [row[f]] when that is truthy, [row.value[f]] otherwise. *)
Definition row_id (f : string) (row v : JValue) : Prop :=
  exists a, get_prop row f = Normal a /\
    if truthy a then v = a
    else exists w, get_prop row "value" = Normal w /\ get_prop w f = Normal v.

(** The rows on which that value can be read: [row[f]] is truthy, or
    [row.value] is neither [undefined] nor [null]. *)
Definition row_ok (f : string) (row : JValue) : bool :=
  match get_prop row f with
  | Normal a =>
      truthy a ||
      match get_prop row "value" with
      | Normal w => negb (nullish w)
      | Throw _ => false
      end
  | Throw _ => false
  end.

(** extractIds as described for every array: a store of the same
    length holding the identifier of each row. *)
Definition extractIds_returns (data : list JValue) (fieldName : option string)
  : Prop :=
  exists store,
    extractIds data fieldName = Normal store /\
    length store = length data /\
    forall i row, data !! i = Some row ->
      exists v, store !! i = Some v /\ row_id (field_or_id fieldName) row v.

(** withKey read as naming a field: request [i] carries the value of
    that field of item [i] as the document name. *)
Definition key_from_field (config : Config) (fieldName : string)
    (its : list JValue) (dbName : string) : Prop :=
  forall i item, its !! i = Some item ->
    exists v, get_prop item fieldName = Normal v /\
      requests (snd (into config dbName (withKey (JStr fieldName) (insert (JArr its))))) !! i
        = Some (DocInsert (getDbName config dbName) item (Some v)).

(** addDesign as described for every collection: one insert request,
    and for each supplied view an entry with a [map] field, and a
    [reduce] field exactly when the definition has a [reduce] of its
    own. *)
Definition addDesign_as_stated (config : Config) (designName : string)
    (viewMaps : list (string * JValue)) (dbName : string) : Prop :=
  exists views w,
    addDesign_to config designName (JObj viewMaps) dbName
      = Normal (PDefer 0, w) /\
    requests w =
      [DocInsert (getDbName config dbName)
         (JObj [("language", JStr "javascript"); ("views", JObj views)])
         (Some (JStr ("_design/" +:+ designName)))] /\
    forall name def, (name, def) ∈ viewMaps ->
      exists ps,
        lookup_prop name views = JObj ps /\
        has_prop "map" ps = true /\
        has_prop "reduce" ps = has_own def "reduce".

(** The entry [views[name]] of a design payload built from the view
    definition [def]. *)
Definition view_entry (def : JValue) (entry : JValue) : Prop :=
  exists m red ps,
    get_prop def "map" = Normal m /\
    get_prop def "reduce" = Normal red /\
    entry = JObj ps /\
    has_prop "map" ps = true /\
    lookup_prop "map" ps = m /\
    has_prop "reduce" ps = truthy red /\
    (truthy red = true -> lookup_prop "reduce" ps = red).

(** Sample data. *)
Definition no_prefix : Config := mkConfig None.
Definition test_prefix : Config := mkConfig (Some "test_").
Definition jeff : JValue := JObj [("name", JStr "jeff")].
Definition annie : JValue := JObj [("name", JStr "annie")].
Definition all_saved (i : nat) : Response := ok (JNum (Z.of_nat i)).
Definition first_conflicts (i : nat) : Response :=
  match i with
  | O => failed (JStr "conflict")
  | S _ => ok (JNum (Z.of_nat i))
  end.

(** The first response a schedule holds for request [i]. *)
Definition first_response (i : nat) (sched : list (nat * Response))
  : option Response :=
  match find (fun ir => Nat.eqb (fst ir) i) sched with
  | Some ir => Some (snd ir)
  | None => None
  end.

(** [reject(error)] or [resolve(body)]. *)
Definition call_result (r : Response) : PState :=
  if truthy (error r) then Rejected (error r) else Resolved (body r).

(** [reject(error)] or [resolve()]. *)
Definition void_result (r : Response) : PState :=
  if truthy (error r) then Rejected (error r) else Resolved JUndefined.

(** The promise of an operation that makes one call: pending until the
    first response to request 0, then what [f] makes of that response. *)
Definition settled_by (f : Response -> PState) (sched : list (nat * Response))
  : PState :=
  match first_response 0 sched with
  | Some r => f r
  | None => Pending
  end.

(** [data[i][f] || data[i].value[f]] for one row. *)
Definition row_value (f : string) (row : JValue) : Completion JValue :=
  let* a := get_prop row f in
  if truthy a then Normal a
  else let* w := get_prop row "value" in get_prop w f.

(** Map with a function that may throw: the first throw ends it. *)
Fixpoint cmapM {A B} (f : A -> Completion B) (l : list A) : Completion (list B) :=
  match l with
  | [] => Normal []
  | x :: l' =>
      let* y := f x in
      let* ys := cmapM f l' in
      Normal (y :: ys)
  end.

(** A row that carries the identifier [id] in its own "id" property. *)
Definition has_id (row : JValue) (id : string) : Prop :=
  exists ps, row = JObj ps /\ lookup_prop "id" ps = JStr id /\ id <> "".

(** The worlds deleteDoc can reach: only the get issued, or the get and
    one destroy of the same document in the same database. *)
Definition deleteDoc_reach (dbName docId : string) (w : World) : Prop :=
  let fetch := DocGet dbName docId (Some (JObj [("revs_info", JBool true)])) in
  (requests w = [fetch] /\
   (waiting w = [Some (KRevInfo dbName docId 0)] \/ waiting w = [None])) \/
  (exists rev,
     requests w = [fetch; DocDestroy dbName docId rev] /\
     (waiting w = [None; Some (KDocDestroy 0)] \/ waiting w = [None; None])).

(** ** Settling deferreds *)

Lemma settle_requests d o w : requests (settle d o w) = requests w.
Proof.
  unfold settle, notify_all.
  destruct (defers w !! d) as [[]|]; simpl; try done.
  destruct (joined w); simpl; try done.
  case_bool_decide; try done.
  destruct (aggregate w); try done.
  destruct o; try done.
  simpl. by destruct (collect _ _).
Qed.

Lemma settle_waiting d o w : waiting (settle d o w) = waiting w.
Proof.
  unfold settle, notify_all.
  destruct (defers w !! d) as [[]|]; simpl; try done.
  destruct (joined w); simpl; try done.
  case_bool_decide; try done.
  destruct (aggregate w); try done.
  destruct o; try done.
  simpl. by destruct (collect _ _).
Qed.

Lemma settle_joined d o w : joined (settle d o w) = joined w.
Proof.
  unfold settle, notify_all.
  destruct (defers w !! d) as [[]|]; simpl; try done.
  destruct (joined w) eqn:E; simpl; try done.
  case_bool_decide; try done.
  destruct (aggregate w); try done.
  destruct o; try done.
  simpl. by destruct (collect _ _).
Qed.

Lemma settle_defers d o w :
  defers w !! d = Some Pending -> defers (settle d o w) = <[d:=o]> (defers w).
Proof.
  intros H. unfold settle, notify_all. rewrite H. simpl.
  destruct (joined w); simpl; try done.
  case_bool_decide; try done.
  destruct (aggregate w); try done.
  destruct o; try done.
  simpl. by destruct (collect _ _).
Qed.

Lemma settle_aggregate d o w ms :
  defers w !! d = Some Pending -> joined w = Some ms -> d ∈ ms ->
  aggregate (settle d o w) =
    match aggregate w with
    | Pending =>
        match o with
        | Rejected e => Rejected e
        | Resolved _ =>
            match collect (<[d:=o]> (defers w)) ms with
            | Some vs => Resolved (JArr vs)
            | None => Pending
            end
        | Pending => Pending
        end
    | a => a
    end.
Proof.
  intros H J M. unfold settle, notify_all. rewrite H. simpl. rewrite J.
  rewrite bool_decide_eq_true_2 by done.
  destruct (aggregate w) eqn:A; try done.
  destruct o; simpl; try done.
  by destruct (collect _ _).
Qed.

Lemma run_app s1 s2 w : run (s1 ++ s2) w = run s2 (run s1 w).
Proof. unfold run. apply fold_left_app. Qed.

Lemma answers_app resp o1 o2 :
  answers resp (o1 ++ o2) = answers resp o1 ++ answers resp o2.
Proof. unfold answers. apply map_app. Qed.

Lemma collect_resolved (ds : list PState) (val : nat -> JValue) ms :
  (forall m, m ∈ ms -> ds !! m = Some (Resolved (val m))) ->
  collect ds ms = Some (map val ms).
Proof.
  induction ms as [|m ms IH]; intros H; simpl; [done|].
  rewrite (H m) by set_solver.
  rewrite IH; [done|]. intros m' Hm'. apply H. set_solver.
Qed.

Lemma collect_pending (ds : list PState) ms i :
  ds !! i = Some Pending -> i ∈ ms -> collect ds ms = None.
Proof.
  intros Hi. induction ms as [|m ms IH]; intros Hin; simpl.
  - by apply elem_of_nil in Hin.
  - destruct (decide (m = i)) as [->|Hne].
    + by rewrite Hi.
    + assert (i ∈ ms) as Hin' by set_solver.
      rewrite (IH Hin'). by destruct (ds !! m) as [[]|].
Qed.

Lemma first_rej_app k res h1 h2 :
  first_rej k res (h1 ++ h2) =
    match first_rej k res h1 with
    | Some e => Some e
    | None => first_rej k res h2
    end.
Proof.
  induction h1 as [|i h1 IH]; simpl; [done|].
  destruct (i <? k)%nat; [|done].
  by destruct (res i).
Qed.

Lemma first_rej_none k res hist i e :
  first_rej k res hist = None -> i ∈ hist -> (i < k)%nat -> res i <> Rejected e.
Proof.
  induction hist as [|j hist IH]; simpl; intros Hn Hin Hlt.
  - by apply elem_of_nil in Hin.
  - destruct (decide (j = i)) as [->|Hne].
    + apply Nat.ltb_lt in Hlt. rewrite Hlt in Hn.
      destruct (res i); congruence.
    + assert (i ∈ hist) as Hin' by set_solver.
      destruct (j <? k)%nat; [destruct (res j)|]; try done; by apply IH.
Qed.

Lemma first_rej_clean k res hist :
  (forall j, j ∈ hist -> (j < k)%nat -> forall e, res j <> Rejected e) ->
  first_rej k res hist = None.
Proof.
  induction hist as [|j hist IH]; simpl; intros H; [done|].
  destruct (j <? k)%nat eqn:E.
  - apply Nat.ltb_lt in E.
    destruct (res j) eqn:R.
    + apply IH. intros; apply H; set_solver.
    + apply IH. intros; apply H; set_solver.
    + exfalso. eapply (H j); [set_solver|done|done].
  - apply IH. intros; apply H; set_solver.
Qed.

(** ** Fan-out and join *)

Section FanOut.
Variable k : nat.
Variable kont : nat -> Kont.
Variable resp : nat -> Response.
Variable res : nat -> PState.

(** Callback [i] on its response settles deferred [i] with [res i], or
    leaves the promises alone when [res i] is [Pending]. *)
Hypothesis kont_spec : forall i w,
  (i < k)%nat ->
  same_promises (run_kont (kont i) (resp i) w)
                (match res i with
                 | Pending => w
                 | o => settle i o w
                 end).

Lemma fan_step hist w i :
  fan_inv k kont res hist w ->
  fan_inv k kont res (hist ++ [i]) (deliver i (resp i) w).
Proof.
  intros (J & LW & LD & P & A).
  assert (Hmem : forall j, j <> i ->
            bool_decide (j ∈ hist ++ [i]) = bool_decide (j ∈ hist)).
  { intros j Hj. apply bool_decide_ext. set_solver. }
  unfold deliver.
  destruct (decide (i < k)%nat) as [Hlt|Hge].
  2:{ rewrite (lookup_ge_None_2 (waiting w) i) by lia.
      repeat split; try done.
      - intros j Hj. rewrite Hmem by lia. by apply P.
      - rewrite A, first_rej_app. simpl.
        rewrite (proj2 (Nat.ltb_ge i k)) by lia.
        by destruct (first_rej k res hist). }
  pose proof (P i Hlt) as Pi.
  case_bool_decide as Hin.
  - (* the callback of request [i] has already run *)
    destruct Pi as [Wi Di]. rewrite Wi.
    repeat split; try done.
    + intros j Hj. destruct (decide (j = i)) as [->|Hne].
      * rewrite bool_decide_eq_true_2 by set_solver. done.
      * rewrite Hmem by done. by apply P.
    + rewrite A, first_rej_app. simpl.
      destruct (first_rej k res hist) eqn:F; [done|].
      rewrite (proj2 (Nat.ltb_lt i k)) by lia.
      destruct (res i) eqn:R; try done.
      exfalso. by eapply (first_rej_none k res hist i e).
  - destruct Pi as [Wi Di]. rewrite Wi.
    set (w' := set_waiting (<[i:=None]> (waiting w)) w).
    destruct (kont_spec i w' Hlt) as (_ & KW & KD & KJ & KA).
    assert (Di' : defers w' !! i = Some Pending) by done.
    assert (Hseq : i ∈ seq 0 k) by (apply elem_of_seq; lia).
    assert (Hcol : collect (defers w) (seq 0 k) = None)
      by (by eapply collect_pending).
    rewrite Hcol in A.
    destruct (res i) as [|v|e] eqn:R.
    + (* the callback threw: no deferred settles *)
      split; [by rewrite KJ|].
      split; [rewrite KW; simpl; by rewrite length_insert|].
      split; [by rewrite KD|].
      split.
      * intros j Hj. rewrite KW, KD. simpl.
        destruct (decide (j = i)) as [->|Hne].
        -- rewrite bool_decide_eq_true_2 by set_solver.
           rewrite list_lookup_insert_eq by lia. by rewrite R.
        -- rewrite Hmem by done. rewrite list_lookup_insert_ne by done.
           by apply P.
      * rewrite KA, KD. simpl. rewrite A, Hcol, first_rej_app. simpl.
        rewrite (proj2 (Nat.ltb_lt i k)) by lia. rewrite R.
        by destruct (first_rej k res hist).
    + (* fulfilled *)
      split; [by rewrite KJ, settle_joined|].
      split; [rewrite KW, settle_waiting; simpl; by rewrite length_insert|].
      split; [rewrite KD, settle_defers by done; simpl; by rewrite length_insert|].
      split.
      * intros j Hj. rewrite KW, KD, settle_waiting, settle_defers by done.
        simpl. destruct (decide (j = i)) as [->|Hne].
        -- rewrite bool_decide_eq_true_2 by set_solver.
           rewrite !list_lookup_insert_eq by lia. by rewrite R.
        -- rewrite Hmem by done. rewrite !list_lookup_insert_ne by done.
           by apply P.
      * rewrite KA, KD.
        rewrite (settle_aggregate i _ w' (seq 0 k)) by done.
        rewrite settle_defers by done. simpl. rewrite A, first_rej_app.
        simpl. rewrite (proj2 (Nat.ltb_lt i k)) by lia. rewrite R.
        by destruct (first_rej k res hist).
    + (* rejected *)
      split; [by rewrite KJ, settle_joined|].
      split; [rewrite KW, settle_waiting; simpl; by rewrite length_insert|].
      split; [rewrite KD, settle_defers by done; simpl; by rewrite length_insert|].
      split.
      * intros j Hj. rewrite KW, KD, settle_waiting, settle_defers by done.
        simpl. destruct (decide (j = i)) as [->|Hne].
        -- rewrite bool_decide_eq_true_2 by set_solver.
           rewrite !list_lookup_insert_eq by lia. by rewrite R.
        -- rewrite Hmem by done. rewrite !list_lookup_insert_ne by done.
           by apply P.
      * rewrite KA.
        rewrite (settle_aggregate i _ w' (seq 0 k)) by done.
        simpl. rewrite A, first_rej_app.
        simpl. rewrite (proj2 (Nat.ltb_lt i k)) by lia. rewrite R.
        by destruct (first_rej k res hist).
Qed.

Lemma fan_run order : forall hist w,
  fan_inv k kont res hist w ->
  fan_inv k kont res (hist ++ order) (run (answers resp order) w).
Proof.
  induction order as [|i order IH]; intros hist w H; simpl.
  - by rewrite app_nil_r.
  - replace (hist ++ i :: order) with ((hist ++ [i]) ++ order)
      by (by rewrite <- app_assoc).
    apply IH. by apply fan_step.
Qed.

Lemma fan_resolved hist w (val : nat -> JValue) :
  fan_inv k kont res hist w ->
  (forall i, (i < k)%nat -> i ∈ hist) ->
  (forall i, (i < k)%nat -> res i = Resolved (val i)) ->
  aggregate w = Resolved (JArr (map val (seq 0 k))).
Proof.
  intros (J & LW & LD & P & A) Hall Hres.
  rewrite A, first_rej_clean.
  2:{ intros j _ Hj e. rewrite Hres by done. done. }
  rewrite (collect_resolved _ val); [done|].
  intros m Hm. apply elem_of_seq in Hm.
  assert (m < k)%nat as Hlt by lia.
  pose proof (P m Hlt) as Pm.
  rewrite bool_decide_eq_true_2 in Pm by auto.
  destruct Pm as [_ ->]. by rewrite Hres.
Qed.

Lemma fan_rejected pre i post w e :
  fan_inv k kont res (pre ++ i :: post) w ->
  (i < k)%nat -> res i = Rejected e ->
  (forall j, j ∈ pre -> (j < k)%nat -> forall e', res j <> Rejected e') ->
  aggregate w = Rejected e.
Proof.
  intros (J & LW & LD & P & A) Hlt Hres Hpre.
  rewrite A, first_rej_app, first_rej_clean by done.
  simpl. rewrite (proj2 (Nat.ltb_lt i k)) by lia. by rewrite Hres.
Qed.

Lemma fan_step_requests hist w i :
  fan_inv k kont res hist w ->
  requests (deliver i (resp i) w) = requests w.
Proof.
  intros (J & LW & LD & P & A). unfold deliver.
  destruct (decide (i < k)%nat) as [Hlt|Hge].
  2:{ by rewrite (lookup_ge_None_2 (waiting w) i) by lia. }
  pose proof (P i Hlt) as Pi.
  case_bool_decide; destruct Pi as [-> _]; [done|].
  destruct (kont_spec i (set_waiting (<[i:=None]> (waiting w)) w) Hlt)
    as (-> & _).
  destruct (res i); [done|by rewrite settle_requests..].
Qed.

Lemma fan_run_requests order : forall hist w,
  fan_inv k kont res hist w ->
  requests (run (answers resp order) w) = requests w.
Proof.
  induction order as [|i order IH]; intros hist w H; simpl; [done|].
  rewrite (IH (hist ++ [i])) by (by apply fan_step).
  by eapply fan_step_requests.
Qed.
End FanOut.

(** ** The worlds the fan-out operations start in *)

Lemma lookup_map_seq {A} (f : nat -> A) a k i :
  (i < k)%nat -> map f (seq a k) !! i = Some (f (a + i)%nat).
Proof.
  revert a i. induction k as [|k IH]; intros a i Hi; [lia|].
  destruct i as [|i]; simpl.
  - by rewrite Nat.add_0_r.
  - rewrite IH by lia. f_equal. f_equal. lia.
Qed.

Lemma map_nth_seq {A B} (f : A -> B) (d : A) (l : list A) :
  map (fun i => f (nth i l d)) (seq 0 (length l)) = map f l.
Proof.
  induction l as [|x l IH]; simpl; [done|].
  f_equal. rewrite <- seq_shift, map_map. exact IH.
Qed.

Lemma first_rejected_pending n ms :
  first_rejected (replicate n Pending) ms = None.
Proof.
  induction ms as [|m ms IH]; simpl; [done|].
  destruct (replicate n Pending !! m) as [p|] eqn:E; [|done].
  apply lookup_replicate in E as [-> _]. done.
Qed.

Lemma insert_items_shape dbName keyName its : forall ins w,
  fold_left (insert_item dbName keyName) its (ins, w) =
    (ins ++ seq (length (defers w)) (length its),
     mkWorld
       (requests w ++ map (fun it => DocInsert dbName it (insert_docName keyName)) its)
       (waiting w ++ map (fun d => Some (KInsert d)) (seq (length (defers w)) (length its)))
       (defers w ++ replicate (length its) Pending)
       (joined w) (aggregate w) (dbList w) (index w) (console w) (uncaught w)).
Proof.
  induction its as [|it its IH]; intros ins w; simpl.
  - rewrite !app_nil_r. by destruct w.
  - rewrite IH. simpl. rewrite length_app. simpl.
    rewrite Nat.add_1_r, <- !app_assoc. done.
Qed.

Lemma checkDbExists_names_shape names : forall ps w,
  dbList w = JUndefined ->
  fold_left checkDbExists_name names (ps, w) =
    (ps ++ seq (length (defers w)) (length names),
     mkWorld
       (requests w ++ map (fun _ => DbList) names)
       (waiting w ++
          map (fun i => Some (KDbList (length (defers w) + i) (nth i names "")))
              (seq 0 (length names)))
       (defers w ++ replicate (length names) Pending)
       (joined w) (aggregate w) (dbList w) (index w) (console w) (uncaught w)).
Proof.
  induction names as [|n names IH]; intros ps w Hl; simpl.
  - rewrite !app_nil_r. by destruct w.
  - rewrite Hl. simpl. rewrite IH by done. simpl.
    rewrite length_app. simpl.
    rewrite Nat.add_1_r, Nat.add_0_r, <- !app_assoc. simpl.
    rewrite <- (seq_shift (length names) 0), map_map.
    f_equal. f_equal; [|done]. do 2 f_equal.
    apply map_ext. intros i. do 2 f_equal. lia.
Qed.

Lemma into_world config dbName b :
  into config dbName b =
    (PAll,
     q_all (seq 0 (length (items b)))
       (mkWorld
          (map (fun it => DocInsert (getDbName config dbName) it
                            (insert_docName (keyName b))) (items b))
          (map (fun d => Some (KInsert d)) (seq 0 (length (items b))))
          (replicate (length (items b)) Pending)
          None Pending JUndefined 0%Z [] [])).
Proof. unfold into. by rewrite insert_items_shape. Qed.

Lemma checkDbExists_world names :
  checkDbExists (inr names) =
    (PAll,
     q_all (seq 0 (length names))
       (mkWorld
          (map (fun _ => DbList) names)
          (map (fun i => Some (KDbList i (nth i names ""))) (seq 0 (length names)))
          (replicate (length names) Pending)
          None Pending JUndefined 0%Z [] [])).
Proof. unfold checkDbExists. by rewrite checkDbExists_names_shape. Qed.

Lemma q_all_fan k kont reqs d i cs us :
  fan_inv k kont (fun _ => Pending) []
    (q_all (seq 0 k)
       (mkWorld reqs (map (fun j => Some (kont j)) (seq 0 k))
                (replicate k Pending) None Pending d i cs us)).
Proof.
  unfold fan_inv, q_all. simpl.
  rewrite first_rejected_pending.
  destruct (collect (replicate k Pending) (seq 0 k)) eqn:C; simpl;
    rewrite ?C, ?length_map, ?length_seq, ?length_replicate;
    (split; [done|]); (split; [done|]); (split; [done|]); (split; [|done]);
    intros j Hj; rewrite lookup_map_seq, lookup_replicate_2 by done; done.
Qed.

Lemma fan_inv_res k kont res res' hist w :
  hist = [] ->
  fan_inv k kont res hist w -> fan_inv k kont res' hist w.
Proof. intros ->. unfold fan_inv. simpl. done. Qed.

Lemma settle_set_dbList d o v w :
  same_promises (settle d o (set_dbList v w)) (settle d o w).
Proof.
  unfold same_promises, settle, notify_all. simpl.
  destruct (defers w !! d) as [[]|]; simpl; try done.
  destruct (joined w); simpl; try done.
  case_bool_decide; try done.
  destruct (aggregate w); try done.
  destruct o; try done.
  simpl. by destruct (collect _ _).
Qed.

Lemma insert_kont_spec resp i w :
  same_promises (run_kont (KInsert i) (resp i) w)
                (match insert_result (resp i) with
                 | Pending => w
                 | o => settle i o w
                 end).
Proof.
  unfold insert_result. simpl.
  destruct (truthy (error (resp i))); done.
Qed.

Lemma check_kont_spec names resp i w :
  same_promises (run_kont (KDbList i (nth i names "")) (resp i) w)
                (match check_result (nth i names "") (resp i) with
                 | Pending => w
                 | o => settle i o w
                 end).
Proof.
  unfold check_result. simpl. unfold runChecks. simpl.
  destruct (js_indexOf (body (resp i)) (nth i names "")); [|done].
  apply settle_set_dbList.
Qed.

Lemma index_from_strings (n : string) (L : list string) : forall z,
  (0 <= z)%Z ->
  negb (index_from (JStr n) (map JStr L) z =? -1)%Z = bool_decide (n ∈ L).
Proof.
  induction L as [|x L IH]; intros z Hz; cbn [index_from map strict_eq].
  - rewrite bool_decide_eq_false_2; [done|]. by intros ?%elem_of_nil.
  - destruct (String.eqb x n) eqn:E.
    + apply String.eqb_eq in E as ->.
      rewrite bool_decide_eq_true_2 by (by left).
      destruct (Z.eqb_spec z (-1)); [lia|done].
    + apply String.eqb_neq in E.
      rewrite IH by lia. apply bool_decide_ext.
      split; [by right|].
      intros [?|?]%elem_of_cons; [congruence|done].
Qed.

Lemma deliver_idle i r w :
  Forall (fun k => k = None) (waiting w) -> deliver i r w = w.
Proof.
  intros H. unfold deliver.
  destruct (waiting w !! i) as [[k|]|] eqn:E; try done.
  by eapply Forall_lookup_1 in E; [|exact H].
Qed.

Lemma run_idle sched w :
  Forall (fun k => k = None) (waiting w) -> run sched w = w.
Proof.
  intros H. induction sched as [|[i r] sched IH]; simpl; [done|].
  by rewrite deliver_idle.
Qed.

Lemma insert_fan config dbName b :
  fan_inv (length (items b)) KInsert (fun _ => Pending) []
          (snd (into config dbName b)).
Proof. rewrite into_world. apply q_all_fan. Qed.

Lemma checkDbExists_fan names :
  fan_inv (length names) (fun i => KDbList i (nth i names ""))
          (fun _ => Pending) [] (snd (checkDbExists (inr names))).
Proof.
  rewrite checkDbExists_world.
  apply (q_all_fan _ (fun i => KDbList i (nth i names ""))).
Qed.

Lemma q_all_requests ms w : requests (q_all ms w) = requests w.
Proof.
  unfold q_all. simpl.
  destruct (first_rejected _ _); [done|]. by destruct (collect _ _).
Qed.

Lemma checkDbExists_requests names :
  issued (checkDbExists (inr names)) [] = map (fun _ => DbList) names.
Proof.
  unfold issued. rewrite checkDbExists_world. simpl. by rewrite q_all_requests.
Qed.

(** ** Batch insert *)

Lemma insert_run_fan config dbName b resp order :
  fan_inv (length (items b)) KInsert (fun i => insert_result (resp i)) order
          (run (answers resp order) (snd (into config dbName b))).
Proof.
  pose proof (insert_fan config dbName b) as F0.
  apply (fan_inv_res _ _ _ (fun i => insert_result (resp i)) _ _ eq_refl) in F0.
  exact (fan_run _ KInsert resp (fun i => insert_result (resp i))
           (fun i w _ => insert_kont_spec resp i w) order [] _ F0).
Qed.

Lemma insert_issued config dbName b resp order :
  issued (into config dbName b) (answers resp order) =
    map (fun item => DocInsert (getDbName config dbName) item
                       (insert_docName (keyName b))) (items b).
Proof.
  pose proof (insert_fan config dbName b) as F0.
  apply (fan_inv_res _ _ _ (fun i => insert_result (resp i)) _ _ eq_refl) in F0.
  unfold issued.
  rewrite (fan_run_requests _ KInsert resp (fun i => insert_result (resp i))
             (fun i w _ => insert_kont_spec resp i w) order [] _ F0).
  rewrite into_world. simpl. by rewrite q_all_requests.
Qed.

Lemma insert_outcome config dbName b sched :
  outcome (into config dbName b) sched =
    aggregate (run sched (snd (into config dbName b))).
Proof. unfold outcome. by rewrite into_world. Qed.

Lemma first_failure_split (bad : nat -> bool) order i :
  i ∈ order -> bad i = true ->
  exists pre j post,
    order = pre ++ j :: post /\ bad j = true /\
    forall x, x ∈ pre -> bad x = false.
Proof.
  induction order as [|x order IH]; intros Hin Hbad.
  - by apply elem_of_nil in Hin.
  - destruct (bad x) eqn:Hx.
    + exists [], x, order. split; [done|]. split; [done|].
      by intros y ?%elem_of_nil.
    + assert (i ∈ order) as Hin'.
      { apply elem_of_cons in Hin as [->|?]; [congruence|done]. }
      destruct (IH Hin' Hbad) as (pre & j & post & -> & Hj & Hpre).
      exists (x :: pre), j, post. split; [done|]. split; [done|].
      intros y [->|?]%elem_of_cons; [done|by apply Hpre].
Qed.

(** C5. Batch insert of [k] documents.  Request [i] is the insert of item
    [i].  When every request is answered without error, in whatever
    order, the aggregate is fulfilled with the bodies in input order.
    When an insert fails, the aggregate is rejected with the error of the
    first failure to arrive, so with the error of a failed insert, and no
    sequence of bodies is produced. *)
Theorem insert_all_or_nothing config dbName b resp order :
  let k := length (items b) in
  let op := into config dbName b in
  issued op (answers resp order) =
    map (fun item => DocInsert (getDbName config dbName) item
                       (insert_docName (keyName b))) (items b) /\
  ((forall i, (i < k)%nat -> i ∈ order /\ truthy (error (resp i)) = false) ->
   outcome op (answers resp order) =
     Resolved (JArr (map (fun i => body (resp i)) (seq 0 k)))) /\
  (forall pre i post,
     order = pre ++ i :: post -> (i < k)%nat ->
     truthy (error (resp i)) = true ->
     (forall j, j ∈ pre -> (j < k)%nat -> truthy (error (resp j)) = false) ->
     outcome op (answers resp order) = Rejected (error (resp i))) /\
  (forall i, (i < k)%nat -> i ∈ order -> truthy (error (resp i)) = true ->
     exists j, (j < k)%nat /\ j ∈ order /\ truthy (error (resp j)) = true /\
       outcome op (answers resp order) = Rejected (error (resp j))).
Proof.
  intros k op. subst op.
  pose proof (insert_run_fan config dbName b resp order) as F.
  rewrite insert_outcome.
  assert (Hrej : forall pre i post,
     order = pre ++ i :: post -> (i < k)%nat ->
     truthy (error (resp i)) = true ->
     (forall j, j ∈ pre -> (j < k)%nat -> truthy (error (resp j)) = false) ->
     aggregate (run (answers resp order) (snd (into config dbName b))) =
       Rejected (error (resp i))).
  { intros pre i post E Hi He Hpre. rewrite E in F |- *.
    eapply fan_rejected; [exact F|done| |].
    + unfold insert_result. by rewrite He.
    + intros j Hj Hjk e'. unfold insert_result.
      by rewrite (Hpre j Hj Hjk). }
  split; [apply insert_issued|split; [|split; [exact Hrej|]]].
  - intros H.
    eapply fan_resolved; [exact F| |].
    + intros i Hi. by apply H.
    + intros i Hi. unfold insert_result. by rewrite (proj2 (H i Hi)).
  - intros i Hi Hin He.
    destruct (first_failure_split
                (fun j => (j <? k)%nat && truthy (error (resp j))) order i Hin)
      as (pre & j & post & E & Hj & Hpre).
    { by rewrite (proj2 (Nat.ltb_lt i k) Hi), He. }
    apply andb_true_iff in Hj as [Hjk Hje]. apply Nat.ltb_lt in Hjk.
    exists j. split; [done|]. split; [rewrite E; set_solver|].
    split; [done|].
    apply (Hrej pre j post E Hjk Hje).
    intros x Hx Hxk. specialize (Hpre x Hx).
    by rewrite (proj2 (Nat.ltb_lt x k) Hxk) in Hpre.
Qed.

(** C1 (the code on a keyed batch). After [withKey(key)] with a truthy
    [key], every insert request of the batch carries [key] itself as the
    document name, where the claim has the value of the item's field
    named [key]: the items of a keyed batch are all sent under one
    name. *)
Theorem withKey_passes_key config key b dbName resp order :
  truthy key = true ->
  issued (into config dbName (withKey key b)) (answers resp order) =
    map (fun item => DocInsert (getDbName config dbName) item (Some key))
        (items b).
Proof.
  intros Hk. rewrite insert_issued. simpl.
  unfold insert_docName. by rewrite Hk.
Qed.

(** C8. A single document that is not an array is inserted as the
    one-element batch holding it: the same requests, the same promise,
    whatever the key and the schedule; the result is the one-element
    sequence of the body, or the error. *)
Theorem insert_single_as_batch d config dbName key sched r :
  is_array d = false ->
  insert d = insert (JArr [d]) /\
  issued (into config dbName (withKey key (insert d))) sched =
    issued (into config dbName (withKey key (insert (JArr [d])))) sched /\
  outcome (into config dbName (withKey key (insert d))) sched =
    outcome (into config dbName (withKey key (insert (JArr [d])))) sched /\
  issued (into config dbName (insert d)) [(0%nat, r)] =
    [DocInsert (getDbName config dbName) d None] /\
  outcome (into config dbName (insert d)) [(0%nat, r)] =
    (if truthy (error r) then Rejected (error r)
     else Resolved (JArr [body r])).
Proof.
  intros Hd.
  assert (E : insert d = insert (JArr [d])) by (by destruct d).
  rewrite E. repeat split; try done.
  - cbv -[getDbName truthy]. by destruct (truthy _).
  - cbv -[getDbName truthy]. by destruct (truthy _).
Qed.

(** ** Existence check *)

Lemma checkDbExists_run_fan names resp order :
  fan_inv (length names) (fun i => KDbList i (nth i names ""))
          (fun i => check_result (nth i names "") (resp i)) order
          (run (answers resp order) (snd (checkDbExists (inr names)))).
Proof.
  pose proof (checkDbExists_fan names) as F0.
  apply (fan_inv_res _ _ _ (fun i => check_result (nth i names "") (resp i))
           _ _ eq_refl) in F0.
  exact (fan_run _ (fun i => KDbList i (nth i names "")) resp
           (fun i => check_result (nth i names "") (resp i))
           (fun i w _ => check_kont_spec names resp i w) order [] _ F0).
Qed.

Lemma checkDbExists_outcome names sched :
  outcome (checkDbExists (inr names)) sched =
    aggregate (run sched (snd (checkDbExists (inr names)))).
Proof. unfold outcome. by rewrite checkDbExists_world. Qed.

(** C7. checkDbExists on a sequence of names, every list request being
    answered with the server's listing: the promise is fulfilled with one
    boolean per name, in input order, true exactly when the name, as
    supplied, is in the listing.  A single name is the one-element
    sequence. *)
Theorem checkDbExists_membership (names listing : list string) resp order :
  (forall i, (i < length names)%nat ->
     i ∈ order /\ body (resp i) = JArr (map JStr listing)) ->
  outcome (checkDbExists (inr names)) (answers resp order) =
    Resolved (JArr (map (fun n => JBool (bool_decide (n ∈ listing))) names)) /\
  forall name, checkDbExists (inl name) = checkDbExists (inr [name]).
Proof.
  intros H. split; [|done].
  rewrite checkDbExists_outcome.
  rewrite <- (map_nth_seq (fun n => JBool (bool_decide (n ∈ listing))) "" names).
  eapply fan_resolved; [apply checkDbExists_run_fan| |].
  - intros i Hi. by apply H.
  - intros i Hi. unfold check_result.
    rewrite (proj2 (H i Hi)). simpl.
    by rewrite index_from_strings.
Qed.

(** C2 (the code at the failing input). One list request goes out per
    name, before any response can arrive: two for two names.  Each name
    is resolved against the response to its own request. *)
Theorem checkDbExists_fetch_per_name :
  (forall names,
     issued (checkDbExists (inr names)) [] = map (fun _ => DbList) names) /\
  issued (checkDbExists (inr ["a"; "b"])) [] = [DbList; DbList] /\
  outcome (checkDbExists (inr ["a"; "b"]))
          [(0%nat, ok (JArr [JStr "a"])); (1%nat, ok (JArr [JStr "b"]))] =
    Resolved (JArr [JBool true; JBool true]).
Proof. split; [apply checkDbExists_requests|split; reflexivity]. Qed.

(** C3 (the code at the failing input). The list request fails with [e]:
    the callback ignores [error], [runChecks] throws on the missing
    listing, and the promise is never settled. *)
Theorem checkDbExists_list_error_lost e name sched :
  let w := run ((0%nat, failed e) :: sched) (snd (checkDbExists (inl name))) in
  outcome (checkDbExists (inl name)) ((0%nat, failed e) :: sched) = Pending /\
  uncaught w = [TypeError] /\
  defers w = [Pending].
Proof.
  unfold outcome. simpl.
  rewrite run_idle by (repeat constructor).
  done.
Qed.

(** The one-call operations hand the transport's error to their caller. *)
Lemma single_call_propagates config e :
  truthy e = true ->
  forall dbName id design view params viewMaps,
    outcome (destroy config dbName) [(0%nat, failed e)] = Rejected e /\
    outcome (create config dbName) [(0%nat, failed e)] = Rejected e /\
    outcome (get_from config id dbName) [(0%nat, failed e)] = Rejected e /\
    outcome (getList_from config dbName) [(0%nat, failed e)] = Rejected e /\
    outcome (getView_from config dbName (withParams params (getView design view)))
            [(0%nat, failed e)] = Rejected e /\
    outcome (deleteDoc_from config id dbName) [(0%nat, failed e)] = Rejected e /\
    (forall op, addDesign_to config design viewMaps dbName = Normal op ->
       outcome op [(0%nat, failed e)] = Rejected e).
Proof.
  intros He dbName id design view params viewMaps.
  repeat split; try (cbv -[getDbName truthy String.append]; by rewrite He).
  intros op Hop. unfold addDesign_to in Hop. simpl in Hop.
  destruct (design_views _ _ _); [|done].
  simpl in Hop. injection Hop as <-.
  cbv -[getDbName truthy String.append]. by rewrite He.
Qed.

(** ** Delete by id *)

Lemma run_skip resp order w :
  (forall i, i ∈ order -> forall k, waiting w !! i <> Some (Some k)) ->
  run (answers resp order) w = w.
Proof.
  induction order as [|i order IH]; intros H; simpl; [done|].
  assert (deliver i (resp i) w = w) as ->.
  { unfold deliver. pose proof (H i ltac:(by left)) as Hi.
    destruct (waiting w !! i) as [[k|]|]; [by destruct (Hi k)|done..]. }
  apply IH. intros j Hj. apply H. by right.
Qed.

Lemma run_cons resp i order w :
  run (answers resp (i :: order)) w = run (answers resp order) (deliver i (resp i) w).
Proof. done. Qed.

(** The world of deleteDoc once the revision has arrived. *)
Lemma deleteDoc_fetched config docId dbName resp rev :
  truthy (error (resp 0%nat)) = false ->
  get_prop (body (resp 0%nat)) "_rev" = Normal rev ->
  deliver 0 (resp 0%nat) (snd (deleteDoc_from config docId dbName)) =
    mkWorld [DocGet dbName docId (Some (JObj [("revs_info", JBool true)]));
             DocDestroy dbName docId rev]
            [None; Some (KDocDestroy 0)] [Pending]
            None Pending JUndefined 0%Z [] [].
Proof.
  intros He Hr. unfold deliver. simpl. rewrite He, Hr. done.
Qed.

Lemma deleteDoc_fetch_failed config docId dbName resp :
  truthy (error (resp 0%nat)) = true ->
  deliver 0 (resp 0%nat) (snd (deleteDoc_from config docId dbName)) =
    mkWorld [DocGet dbName docId (Some (JObj [("revs_info", JBool true)]))]
            [None] [Rejected (error (resp 0%nat))]
            None Pending JUndefined 0%Z [] [].
Proof.
  intros He. unfold deliver. simpl. rewrite He. done.
Qed.

Lemma deleteDoc_waits config docId dbName resp order :
  0%nat ∉ order ->
  run (answers resp order) (snd (deleteDoc_from config docId dbName)) =
    snd (deleteDoc_from config docId dbName).
Proof.
  intros H0. apply run_skip. intros i Hi k. simpl.
  destruct i as [|i]; [done|]. by destruct i.
Qed.

(** C6. deleteDoc is a strict two-step sequence.  Until the response to
    the get arrives only the get has been issued.  When the get fails
    with [e], no destroy request is ever issued and the promise is
    rejected with [e].  When it succeeds with a body whose revision is
    [rev], the destroy request is issued with [docId] and [rev], and the
    promise takes the destroy's outcome: its body on success, its error
    on failure. *)
Theorem deleteDoc_two_steps config docId dbName resp order :
  let op := deleteDoc_from config docId dbName in
  let fetch := DocGet dbName docId (Some (JObj [("revs_info", JBool true)])) in
  (0%nat ∉ order ->
     issued op (answers resp order) = [fetch] /\
     outcome op (answers resp order) = Pending) /\
  (truthy (error (resp 0%nat)) = true ->
     issued op (answers resp order) = [fetch] /\
     (0%nat ∈ order ->
        outcome op (answers resp order) = Rejected (error (resp 0%nat)))) /\
  (forall rev pre post,
     truthy (error (resp 0%nat)) = false ->
     get_prop (body (resp 0%nat)) "_rev" = Normal rev ->
     order = pre ++ 0%nat :: post -> 0%nat ∉ pre ->
     issued op (answers resp order) = [fetch; DocDestroy dbName docId rev] /\
     (1%nat ∉ post -> outcome op (answers resp order) = Pending) /\
     (1%nat ∈ post ->
        outcome op (answers resp order) =
          if truthy (error (resp 1%nat)) then Rejected (error (resp 1%nat))
          else Resolved (body (resp 1%nat)))).
Proof.
  intros op fetch. subst op fetch. unfold issued, outcome.
  split; [|split].
  - intros H0. by rewrite deleteDoc_waits.
  - intros He.
    destruct (decide (0%nat ∈ order)) as [Hin|Hout].
    2:{ by rewrite deleteDoc_waits. }
    apply list_elem_of_split_l in Hin as (pre & post & -> & Hpre).
    rewrite answers_app, run_app, deleteDoc_waits, run_cons by done.
    rewrite deleteDoc_fetch_failed by done.
    rewrite run_idle by (repeat constructor). done.
  - intros rev pre post He Hr -> Hpre.
    rewrite answers_app, run_app, deleteDoc_waits, run_cons by done.
    rewrite (deleteDoc_fetched _ _ _ _ rev) by done.
    set (w1 := mkWorld _ _ _ _ _ _ _ _ _).
    assert (Hskip : forall o, 1%nat ∉ o -> run (answers resp o) w1 = w1).
    { intros o Ho. apply run_skip. intros i Hi k. simpl.
      destruct i as [|[|i]]; [done| |done]. by destruct Ho. }
    destruct (decide (1%nat ∈ post)) as [Hin|Hout].
    + apply list_elem_of_split_l in Hin as (p1 & p2 & -> & Hp1).
      rewrite answers_app, run_app, Hskip, run_cons by done.
      unfold deliver. simpl. unfold reject_or_resolve.
      destruct (truthy (error (resp 1%nat)));
        (rewrite run_idle by (repeat constructor));
        (split; [done|]); (split; [|done]);
        intros Hn; exfalso; apply Hn; set_solver.
    + rewrite Hskip by done. done.
Qed.

(** C4 (the code at the failing input). deleteDoc sends its get to the
    name it is given.  With the prefix "test_" configured, its get and
    its destroy go to "people", the logical name, while getDbName maps
    "people" to "test_people", where get sends its request. *)
Theorem deleteDoc_skips_prefix :
  (forall config docId dbName,
     issued (deleteDoc_from config docId dbName) [] =
       [DocGet dbName docId (Some (JObj [("revs_info", JBool true)]))]) /\
  getDbName test_prefix "people" = "test_people" /\
  issued (deleteDoc_from test_prefix "jeff" "people")
         [(0%nat, ok (JObj [("_rev", JStr "3-abc")]))]
    = [DocGet "people" "jeff" (Some (JObj [("revs_info", JBool true)]));
       DocDestroy "people" "jeff" (JStr "3-abc")] /\
  issued (get_from test_prefix "jeff" "people") []
    = [DocGet "test_people" "jeff" None].
Proof. repeat split; reflexivity. Qed.

(** ** Design documents *)

Lemma get_prop_normal v k : nullish v = false -> exists x, get_prop v k = Normal x.
Proof.
  unfold get_prop.
  destruct v; try done; intros _;
    match goal with
    | |- context [own_prop ?x k] => destruct (own_prop x k)
    end; eauto;
    destruct (String.eqb k "hasOwnProperty"); eauto.
Qed.

Lemma get_prop_own ps k :
  has_prop k ps = true -> get_prop (JObj ps) k = Normal (lookup_prop k ps).
Proof. intros H. unfold get_prop. simpl. by rewrite H. Qed.

Lemma lookup_has k ps :
  lookup_prop k ps <> JUndefined -> has_prop k ps = true.
Proof.
  unfold lookup_prop, has_prop. induction ps as [|[k0 v0] ps IH]; simpl; [done|].
  destruct (String.eqb k0 k); [done|exact IH].
Qed.

Lemma lookup_set_eq k v ps : lookup_prop k (set_prop k v ps) = v.
Proof.
  unfold lookup_prop. induction ps as [|[k' v'] ps IH]; simpl.
  - by rewrite String.eqb_refl.
  - destruct (String.eqb k' k) eqn:E; simpl.
    + by rewrite String.eqb_refl.
    + by rewrite E.
Qed.

Lemma lookup_set_ne k k' v ps :
  k <> k' -> lookup_prop k' (set_prop k v ps) = lookup_prop k' ps.
Proof.
  intros Hne. unfold lookup_prop. induction ps as [|[k0 v0] ps IH]; simpl.
  - by rewrite (proj2 (String.eqb_neq k k')).
  - destruct (String.eqb k0 k) eqn:E; simpl.
    + apply String.eqb_eq in E as ->.
      by rewrite (proj2 (String.eqb_neq k k')).
    + destruct (String.eqb k0 k'); [done|exact IH].
Qed.

Lemma has_set k k' v ps :
  has_prop k' (set_prop k v ps) = has_prop k' ps || String.eqb k k'.
Proof.
  unfold has_prop. induction ps as [|[k0 v0] ps IH]; simpl.
  - by rewrite orb_false_r.
  - destruct (String.eqb k0 k) eqn:E; simpl.
    + apply String.eqb_eq in E as ->.
      destruct (String.eqb k k'); simpl; [done|]. by rewrite orb_false_r.
    + rewrite IH. by rewrite orb_assoc.
Qed.

Lemma has_prop_elem k ps : has_prop k ps = bool_decide (k ∈ map fst ps).
Proof.
  unfold has_prop. induction ps as [|[k0 v0] ps IH]; cbn [existsb map fst].
  - rewrite bool_decide_eq_false_2; [done|]. by intros ?%elem_of_nil.
  - rewrite IH. destruct (String.eqb k0 k) eqn:E; cbn [orb].
    + apply String.eqb_eq in E as ->.
      by rewrite bool_decide_eq_true_2 by (by left).
    + apply String.eqb_neq in E. apply bool_decide_ext.
      split; [by right|]. intros [?|?]%elem_of_cons; [congruence|done].
Qed.

Lemma has_prop_in k ps : has_prop k ps = true <-> k ∈ map fst ps.
Proof. rewrite has_prop_elem. apply bool_decide_eq_true. Qed.

(** The guard of the [for ... in] loop passes on the own names of a
    collection that leaves [hasOwnProperty] to the built-in. *)
Lemma has_own_property_builtin vm k :
  has_prop "hasOwnProperty" vm = false ->
  has_own_property (JObj vm) k = Normal (has_prop k vm).
Proof.
  intros H. unfold has_own_property, get_prop. simpl. rewrite H. simpl.
  unfold has_own. simpl. by destruct (has_prop k vm).
Qed.

(** The guard throws when the collection has a property of its own
    under that name that is not a function. *)
Lemma has_own_property_shadowed vm k :
  has_prop "hasOwnProperty" vm = true ->
  (forall f, lookup_prop "hasOwnProperty" vm <> JBuiltin f) ->
  has_own_property (JObj vm) k = Throw TypeError.
Proof.
  intros H Hf. unfold has_own_property. rewrite get_prop_own by done. simpl.
  destruct (lookup_prop "hasOwnProperty" vm) eqn:E; simpl; try done.
  by destruct (Hf name).
Qed.

Lemma design_view_entry vm views name :
  has_prop name vm = true ->
  nullish (lookup_prop name vm) = false ->
  exists entry,
    design_view (JObj vm) views name = Normal (assign_prop name entry views) /\
    view_entry (lookup_prop name vm) entry.
Proof.
  intros Ho Hn. unfold design_view. rewrite get_prop_own by done. simpl.
  destruct (get_prop_normal _ "map" Hn) as [m Hm].
  destruct (get_prop_normal _ "reduce" Hn) as [red Hred].
  rewrite Hm, Hred. simpl.
  eexists. split; [done|].
  exists m, red. eexists. split; [done|]. split; [done|]. split; [done|].
  destruct (truthy red) eqn:T; simpl; by rewrite ?T.
Qed.

Lemma design_views_spec vm keys : forall views,
  has_prop "hasOwnProperty" vm = false ->
  (forall name, name ∈ keys ->
     has_prop name vm = true /\ nullish (lookup_prop name vm) = false) ->
  exists views',
    design_views (JObj vm) keys views = Normal views' /\
    (forall name, has_prop name views' = true <->
       has_prop name views = true \/ (name ∈ keys /\ name <> "__proto__")) /\
    (forall name, name ∈ keys -> name <> "__proto__" ->
       view_entry (lookup_prop name vm) (lookup_prop name views')) /\
    (forall name, name ∉ keys \/ name = "__proto__" ->
       lookup_prop name views' = lookup_prop name views).
Proof.
  induction keys as [|k keys IH]; intros views Hown Hn.
  - exists views. cbn [design_views]. split; [done|]. split; [|split].
    + intros name. split; [by left|].
      intros [?|[?%elem_of_nil _]]; done.
    + by intros name ?%elem_of_nil.
    + done.
  - destruct (Hn k ltac:(by left)) as [Hk Hkn].
    destruct (design_view_entry vm views k Hk Hkn) as (entry & Hv & He).
    destruct (IH (assign_prop k entry views) Hown)
      as (views' & Hd & Hh & Hin & Hout).
    { intros name Hname. apply Hn. by right. }
    exists views'. cbn [design_views].
    rewrite has_own_property_builtin by done. rewrite Hk. simpl.
    rewrite Hv. simpl. split; [done|].
    unfold assign_prop in *.
    destruct (String.eqb k "__proto__") eqn:Ek.
    + apply String.eqb_eq in Ek as ->. split; [|split].
      * intros name. rewrite Hh. set_solver.
      * intros name Hname Hne. apply Hin; [|done]. set_solver.
      * intros name [Hname|Hname]; apply Hout; set_solver.
    + apply String.eqb_neq in Ek. split; [|split].
      * intros name. rewrite Hh, has_set, orb_true_iff, String.eqb_eq.
        set_solver.
      * intros name Hname Hne.
        destruct (decide (name ∈ keys)) as [Hin'|Hin']; [by apply Hin|].
        apply elem_of_cons in Hname as [->|?]; [|done].
        rewrite Hout by (by left). by rewrite lookup_set_eq.
      * intros name [Hname|Hname].
        -- apply not_elem_of_cons in Hname as [Hne Hk'].
           rewrite Hout by (by left). by apply lookup_set_ne.
        -- subst name. rewrite Hout by (by right). by apply lookup_set_ne.
Qed.

Lemma run_kont_one_shot k r w :
  (forall a b c, k <> KRevInfo a b c) ->
  requests (run_kont k r w) = requests w /\
  waiting (run_kont k r w) = waiting w.
Proof.
  intros Hk.
  destruct k; simpl; unfold reject_or_resolve, runChecks, q_reject, q_resolve;
    try (by destruct (Hk dbName docId defer));
    try (destruct (truthy (error r)); simpl;
         by rewrite ?settle_requests, ?settle_waiting).
  destruct (js_indexOf _ _); simpl; by rewrite ?settle_requests, ?settle_waiting.
Qed.

Lemma one_shot_requests k w sched :
  waiting w = [Some k] ->
  (forall a b c, k <> KRevInfo a b c) ->
  requests (run sched w) = requests w.
Proof.
  intros Hw Hk. revert w Hw.
  induction sched as [|[i r] sched IH]; intros w Hw; simpl; [done|].
  unfold deliver. rewrite Hw.
  destruct i as [|i]; simpl; [|by apply IH].
  destruct (run_kont_one_shot k r (set_waiting [None] w) Hk) as [Hr Hwt].
  rewrite run_idle; [done|]. rewrite Hwt. simpl. repeat constructor.
Qed.

(** C9 (amended). addDesign over a collection of view definitions none
    of which is [undefined] or [null] and none of which is named
    hasOwnProperty: exactly one request is issued, an insert under
    '_design/' + designName, whose payload has the language tag
    'javascript' and a views object with one entry per supplied view
    name other than __proto__; each entry has a [map] field holding the
    definition's [map], and a [reduce] field exactly when the
    definition's [reduce] is truthy. *)
Theorem addDesign_payload config designName
    (viewMaps : list (string * JValue)) dbName sched :
  (forall name, name ∈ map fst viewMaps ->
     nullish (lookup_prop name viewMaps) = false) ->
  has_prop "hasOwnProperty" viewMaps = false ->
  exists views w,
    addDesign_to config designName (JObj viewMaps) dbName = Normal (PDefer 0, w) /\
    issued (PDefer 0, w) sched =
      [DocInsert (getDbName config dbName)
         (JObj [("language", JStr "javascript"); ("views", JObj views)])
         (Some (JStr ("_design/" +:+ designName)))] /\
    (forall name, has_prop name views = true <->
       has_prop name viewMaps = true /\ name <> "__proto__") /\
    (forall name, name ∈ map fst viewMaps -> name <> "__proto__" ->
       view_entry (lookup_prop name viewMaps) (lookup_prop name views)).
Proof.
  intros Hn Hown.
  destruct (design_views_spec viewMaps (map fst viewMaps) [] Hown)
    as (views & Hd & Hh & Hin & _).
  { intros name Hname. split; [by apply has_prop_in|by apply Hn]. }
  exists views. eexists.
  unfold addDesign_to. simpl. rewrite Hd. simpl.
  split; [done|]. split; [|split].
  - unfold issued. by rewrite (one_shot_requests (KAddDesign 0)).
  - intros name. rewrite Hh, !has_prop_in. simpl.
    split; [|by right]. intros [H|H]; [by apply elem_of_nil in H|done].
  - done.
Qed.

(** ** extractIds *)

Lemma row_ok_id f row :
  row_ok f row = true ->
  exists v,
    (let* a := get_prop row f in
     if truthy a then Normal a
     else let* w := get_prop row "value" in get_prop w f) = Normal v /\
    row_id f row v.
Proof.
  unfold row_ok, row_id. intros H.
  destruct (get_prop row f) as [a|] eqn:Ha; [|done]. simpl.
  destruct (truthy a) eqn:T.
  - exists a. split; [done|]. exists a. by rewrite T.
  - simpl in H.
    destruct (get_prop row "value") as [w|] eqn:Hw; [|done]. simpl.
    apply negb_true_iff in H.
    destruct (get_prop_normal w f H) as [v Hv].
    exists v. split; [done|]. exists a. rewrite T. eauto.
Qed.

Lemma extractIds_loop_spec f data : forall n i store,
  (i + n = length data)%nat ->
  (forall row, row ∈ data -> row_ok f row = true) ->
  exists out,
    extractIds_loop n data f i store = Normal (store ++ out) /\
    length out = n /\
    forall j row, data !! (i + j)%nat = Some row -> (j < n)%nat ->
      exists v, out !! j = Some v /\ row_id f row v.
Proof.
  induction n as [|n IH]; intros i store Hlen Hok.
  - exists []. simpl. rewrite app_nil_r. split; [done|]. split; [done|].
    intros j row _ Hj. lia.
  - destruct (lookup_lt_is_Some_2 data i ltac:(lia)) as [row Hrow].
    destruct (row_ok_id f row) as (v & Hv & Hid).
    { apply Hok. by eapply list_elem_of_lookup_2. }
    destruct (IH (S i) (store ++ [v]) ltac:(lia) Hok) as (out & Hout & Hl & Hrows).
    exists (v :: out). cbn [extractIds_loop].
    rewrite (nth_lookup_Some _ _ _ _ Hrow), Hv. simpl.
    rewrite Hout, <- app_assoc. split; [done|]. split; [simpl; lia|].
    intros j row' Hj Hlt. destruct j as [|j].
    + rewrite Nat.add_0_r in Hj. rewrite Hrow in Hj. injection Hj as <-.
      exists v. done.
    + simpl. apply Hrows; [|lia].
      by replace (S i + j)%nat with (i + S j)%nat by lia.
Qed.

(** C10 (amended). On an array every row of which has a truthy
    [fieldName] or a [value] that is neither [undefined] nor [null],
    extractIds returns an array of the same length whose i-th element is
    [data[i][fieldName]] when that is truthy and [data[i].value[fieldName]]
    otherwise; [fieldName] is 'id' when it is left out or empty.  The
    function takes and returns values only: it issues no request and
    leaves [data] as it was. *)
Theorem extractIds_rows data fieldName :
  (forall row, row ∈ data -> row_ok (field_or_id fieldName) row = true) ->
  extractIds_returns data fieldName /\
  field_or_id None = "id" /\
  field_or_id (Some "") = "id" /\
  (forall s, s <> "" -> field_or_id (Some s) = s).
Proof.
  intros Hok. split; [|split; [done|split; [done|]]].
  - destruct (extractIds_loop_spec (field_or_id fieldName) data
                (length data) 0 [] eq_refl Hok) as (out & Hout & Hl & Hrows).
    exists out. split; [exact Hout|]. split; [exact Hl|].
    intros i row Hrow. apply Hrows; [done|].
    by eapply lookup_lt_Some.
  - intros s Hs. unfold field_or_id. simpl.
    by rewrite (proj2 (String.eqb_neq s "")).
Qed.

(** ** Name resolution *)

Lemma append_inj_r (p a b : string) : p +:+ a = p +:+ b -> a = b.
Proof.
  induction p as [|c p IH]; simpl; intros H; [done|].
  injection H as H. by apply IH.
Qed.

(** X1. getDbName: with a non-empty prefix the physical name is the
    prefix followed by the logical name; without one, or with an empty
    one, it is the logical name.  Under any configuration two different
    logical names get two different physical names. *)
Theorem getDbName_resolves config :
  (forall p dbName, prefix config = Some p -> p <> "" ->
     getDbName config dbName = p +:+ dbName) /\
  (forall dbName, prefix config = None \/ prefix config = Some "" ->
     getDbName config dbName = dbName) /\
  (forall a b, getDbName config a = getDbName config b -> a = b).
Proof.
  unfold getDbName. split; [|split].
  - intros p dbName -> Hp. simpl.
    by rewrite (proj2 (String.eqb_neq p "")).
  - intros dbName [->| ->]; done.
  - intros a b. destruct (prefix config) as [p|]; [|done].
    destruct (truthy (JStr p)); [apply append_inj_r|done].
Qed.

(** ** Settled promises stay settled *)

Lemma settle_pending_only d o w :
  defers w !! d <> Some Pending -> settle d o w = w.
Proof.
  intros H. unfold settle. destruct (defers w !! d) as [[]|]; done.
Qed.

Lemma settle_defers_final d d' o o' w :
  defers w !! d = Some o -> o <> Pending ->
  defers (settle d' o' w) !! d = Some o.
Proof.
  intros Hd Ho.
  destruct (defers w !! d') as [[| |]|] eqn:Hp.
  - rewrite settle_defers by done.
    rewrite list_lookup_insert_ne; [done|]. intros ->. congruence.
  - rewrite settle_pending_only; [done|]. by rewrite Hp.
  - rewrite settle_pending_only; [done|]. by rewrite Hp.
  - rewrite settle_pending_only; [done|]. by rewrite Hp.
Qed.

Lemma settle_aggregate_final d o w :
  aggregate w <> Pending -> aggregate (settle d o w) = aggregate w.
Proof.
  intros Ha. unfold settle, notify_all.
  destruct (defers w !! d) as [[]|]; simpl; try done.
  destruct (joined w); simpl; try done.
  case_bool_decide; try done.
  destruct (aggregate w) eqn:E; simpl; done.
Qed.

Lemma run_kont_final k r w :
  (forall d o, defers w !! d = Some o -> o <> Pending ->
     defers (run_kont k r w) !! d = Some o) /\
  (aggregate w <> Pending -> aggregate (run_kont k r w) = aggregate w).
Proof.
  split.
  - intros d o Hd Ho.
    destruct k; simpl; unfold reject_or_resolve, runChecks, q_reject, q_resolve;
      try (destruct (truthy (error r)); simpl; by apply settle_defers_final).
    + destruct (js_indexOf _ _); simpl; [|done].
      by apply (settle_defers_final d defer o _ (set_dbList (body r) w)).
    + destruct (truthy (error r)); simpl; [by apply settle_defers_final|].
      by destruct (get_prop _ _).
  - intros Ha.
    destruct k; simpl; unfold reject_or_resolve, runChecks, q_reject, q_resolve;
      try (destruct (truthy (error r)); simpl; by apply settle_aggregate_final).
    + destruct (js_indexOf _ _); simpl; [|done].
      by apply (settle_aggregate_final defer _ (set_dbList (body r) w)).
    + destruct (truthy (error r)); simpl; [by apply settle_aggregate_final|].
      by destruct (get_prop _ _).
Qed.

Lemma deliver_final p i r w :
  promise_state p w <> Pending ->
  promise_state p (deliver i r w) = promise_state p w.
Proof.
  intros H. unfold deliver.
  destruct (waiting w !! i) as [[k|]|]; try done.
  set (w' := set_waiting _ w).
  destruct (run_kont_final k r w') as [Hd Ha].
  destruct p as [d|]; simpl in *.
  - destruct (defers w !! d) as [o|] eqn:E; [|done]. simpl in H.
    by rewrite (Hd d o E H).
  - by apply Ha.
Qed.

(** X2. A promise that has settled keeps its state: whatever responses
    arrive after an operation's promise was fulfilled or rejected, for
    any operation, the promise does not change. *)
Theorem outcome_final (op : Promise * World) s1 s2 :
  outcome op s1 <> Pending -> outcome op (s1 ++ s2) = outcome op s1.
Proof.
  unfold outcome. rewrite run_app.
  generalize (run s1 (snd op)). intros w.
  revert w. induction s2 as [|[i r] s2 IH]; intros w H; simpl; [done|].
  rewrite IH; [by apply deliver_final|].
  by rewrite deliver_final.
Qed.

(** ** Operations that make one call *)

Lemma one_shot_outcome k (f : Response -> PState) sched : forall w,
  waiting w = [Some k] -> defers w = [Pending] ->
  (forall r w', defers w' = [Pending] ->
     defers (run_kont k r w') = [f r] /\
     waiting (run_kont k r w') = waiting w') ->
  defers (run sched w) = [settled_by f sched].
Proof.
  induction sched as [|[i r] sched IH]; intros w Hw Hd Hk; [done|].
  cbn [run fold_left fst snd]. unfold deliver. rewrite Hw.
  destruct i as [|i]; simpl.
  - destruct (Hk r (set_waiting [None] w) Hd) as [D W].
    rewrite run_idle; [done|]. rewrite W. simpl. repeat constructor.
  - by apply IH.
Qed.

Lemma call_kont_spec k d r w :
  k = KGet d \/ k = KGetList d \/ k = KView d \/ k = KAddDesign d
    \/ k = KDocDestroy d ->
  run_kont k r w = settle d (call_result r) w.
Proof.
  unfold call_result.
  intros [->|[->|[->|[->| ->]]]]; simpl; unfold reject_or_resolve;
    by destruct (truthy (error r)).
Qed.

Lemma call_one_shot k r w' :
  k = KGet 0 \/ k = KGetList 0 \/ k = KView 0 \/ k = KAddDesign 0
    \/ k = KDocDestroy 0 ->
  defers w' = [Pending] ->
  defers (run_kont k r w') = [call_result r] /\
  waiting (run_kont k r w') = waiting w'.
Proof.
  intros Hk Hd. rewrite (call_kont_spec k 0 r w' Hk).
  rewrite settle_waiting, settle_defers by (by rewrite Hd).
  by rewrite Hd.
Qed.

Lemma void_one_shot k r w' :
  k = KDbCreate 0 \/ k = KDbDestroy 0 ->
  defers w' = [Pending] ->
  defers (run_kont k r w') = [void_result r] /\
  waiting (run_kont k r w') = waiting w'.
Proof.
  unfold void_result.
  intros [->| ->] Hd; simpl; destruct (truthy (error r)); simpl;
    unfold q_reject, q_resolve;
    rewrite settle_waiting, settle_defers by (by rewrite Hd);
    by rewrite Hd.
Qed.

(** X3. get: one get-by-id request against the resolved database name,
    and never another.  The promise is pending until the first response
    to it, then rejected with the transport's error or fulfilled with
    the body; later responses are ignored. *)
Theorem get_from_once config _id dbName sched :
  issued (get_from config _id dbName) sched =
    [DocGet (getDbName config dbName) _id None] /\
  outcome (get_from config _id dbName) sched = settled_by call_result sched.
Proof.
  split.
  - unfold issued. by rewrite (one_shot_requests (KGet 0)).
  - unfold outcome. simpl.
    rewrite (one_shot_outcome (KGet 0) call_result); [done..|].
    intros r w'. apply call_one_shot. auto.
Qed.

(** X4. getList: one listing request against the resolved database name,
    and never another; the promise follows the first response to it. *)
Theorem getList_from_once config dbName sched :
  issued (getList_from config dbName) sched =
    [DocList (getDbName config dbName)] /\
  outcome (getList_from config dbName) sched = settled_by call_result sched.
Proof.
  split.
  - unfold issued. by rewrite (one_shot_requests (KGetList 0)).
  - unfold outcome. simpl.
    rewrite (one_shot_outcome (KGetList 0) call_result); [done..|].
    intros r w'. apply call_one_shot. auto.
Qed.

(** X5. getView: one view request against the resolved database name.
    Its arguments are the design name and the view name, followed by the
    parameters when withParams was given truthy ones; falsy parameters
    are not forwarded, and neither is anything when withParams is not
    called.  The promise follows the first response to the request. *)
Theorem getView_from_once config designName viewName params dbName sched :
  issued (getView_from config dbName (withParams params (getView designName viewName)))
         sched =
    [DocView (getDbName config dbName)
       ([JStr designName; JStr viewName] ++ (if truthy params then [params] else []))] /\
  issued (getView_from config dbName (getView designName viewName)) sched =
    [DocView (getDbName config dbName) [JStr designName; JStr viewName]] /\
  outcome (getView_from config dbName (withParams params (getView designName viewName)))
          sched = settled_by call_result sched /\
  outcome (getView_from config dbName (getView designName viewName)) sched =
    settled_by call_result sched.
Proof.
  split; [|split; [|split]].
  - unfold issued. rewrite (one_shot_requests (KView 0)); [|done..].
    unfold withParams. by destruct (truthy params).
  - unfold issued. by rewrite (one_shot_requests (KView 0)).
  - unfold outcome. simpl.
    rewrite (one_shot_outcome (KView 0) call_result); [done..|].
    intros r w'. apply call_one_shot. auto.
  - unfold outcome. simpl.
    rewrite (one_shot_outcome (KView 0) call_result); [done..|].
    intros r w'. apply call_one_shot. auto.
Qed.

(** X6. create: one create-database request for the resolved name, and
    never another.  The promise follows the first response: rejected
    with the transport's error, or fulfilled with no value, whatever the
    response body was. *)
Theorem create_once config dbName sched :
  issued (create config dbName) sched = [DbCreate (getDbName config dbName)] /\
  outcome (create config dbName) sched = settled_by void_result sched.
Proof.
  split.
  - unfold issued. by rewrite (one_shot_requests (KDbCreate 0)).
  - unfold outcome. simpl.
    rewrite (one_shot_outcome (KDbCreate 0) void_result); [done..|].
    intros r w'. apply void_one_shot. auto.
Qed.

(** X7. destroy: one destroy-database request for the resolved name, and
    never another.  The promise follows the first response: rejected
    with the transport's error, or fulfilled with no value. *)
Theorem destroy_once config dbName sched :
  issued (destroy config dbName) sched = [DbDestroy (getDbName config dbName)] /\
  outcome (destroy config dbName) sched = settled_by void_result sched.
Proof.
  split.
  - unfold issued. by rewrite (one_shot_requests (KDbDestroy 0)).
  - unfold outcome. simpl.
    rewrite (one_shot_outcome (KDbDestroy 0) void_result); [done..|].
    intros r w'. apply void_one_shot. auto.
Qed.

(** X8. addDesign, when it issues its request: the promise is pending
    until the first response, then rejected with the transport's error
    or fulfilled with the body. *)
Theorem addDesign_to_outcome config designName viewMaps dbName op sched :
  addDesign_to config designName viewMaps dbName = Normal op ->
  outcome op sched = settled_by call_result sched.
Proof.
  unfold addDesign_to. simpl.
  destruct (design_views _ _ _) as [views|]; [|done].
  simpl. intros [= <-]. unfold outcome. simpl.
  rewrite (one_shot_outcome (KAddDesign 0) call_result); [done..|].
  intros r w'. apply call_one_shot. auto.
Qed.

(** X9. init: the client is created with [options.url] when that is
    truthy and with 'http://localhost:5984' otherwise, so never with a
    falsy location; without an options object the call throws. *)
Theorem init_location options :
  (nullish options = true -> init_dbLocation options = Throw TypeError) /\
  (forall loc, init_dbLocation options = Normal loc ->
     truthy loc = true /\
     exists url, get_prop options "url" = Normal url /\
       (truthy url = true -> loc = url) /\
       (truthy url = false -> loc = JStr "http://localhost:5984")).
Proof.
  unfold init_dbLocation. split.
  - by destruct options.
  - intros loc. destruct (get_prop options "url") as [url|]; [|done].
    simpl. intros [= <-]. destruct (truthy url) eqn:T.
    + split; [done|]. exists url.
      split; [done|]. split; [done|congruence].
    + split; [done|]. exists url.
      split; [done|]. split; [congruence|done].
Qed.

(** ** More on the fan-out operations *)

Lemma fan_pending k kont res hist w i :
  fan_inv k kont res hist w ->
  (i < k)%nat -> (i ∉ hist \/ res i = Pending) ->
  (forall j, j ∈ hist -> (j < k)%nat -> forall e, res j <> Rejected e) ->
  aggregate w = Pending.
Proof.
  intros (J & LW & LD & P & A) Hi Hpend Hclean.
  rewrite A, first_rej_clean by done.
  rewrite (collect_pending _ _ i); [done| |apply elem_of_seq; lia].
  pose proof (P i Hi) as Pi.
  case_bool_decide as Hin.
  - destruct Hpend as [?|Hr]; [done|]. rewrite Hr in Pi. by destruct Pi.
  - by destruct Pi.
Qed.

Lemma fan_never_rejected k kont res hist w e :
  fan_inv k kont res hist w ->
  (forall j e', res j <> Rejected e') ->
  aggregate w <> Rejected e.
Proof.
  intros (J & LW & LD & P & A) Hres.
  rewrite A, first_rej_clean by (intros; apply Hres).
  by destruct (collect _ _).
Qed.

(** X10. Batch insert does not settle early: while some insert is still
    unanswered and no failure has arrived, the aggregate is pending,
    however many inserts have succeeded. *)
Theorem insert_waits_for_all config dbName b resp order i :
  (i < length (items b))%nat -> i ∉ order ->
  (forall j, j ∈ order -> (j < length (items b))%nat ->
     truthy (error (resp j)) = false) ->
  outcome (into config dbName b) (answers resp order) = Pending.
Proof.
  intros Hi Hout Hok. rewrite insert_outcome.
  eapply (fan_pending _ _ _ _ _ i); [apply insert_run_fan|done|by left|].
  intros j Hj Hjk e. unfold insert_result. by rewrite (Hok j Hj Hjk).
Qed.

(** X11. checkDbExists answers each name from the response to that
    name's own list request: when request [i] is answered with the
    listing [listings i], position [i] of the result tells whether name
    [i] is in [listings i]. *)
Theorem checkDbExists_own_listing (names : list string)
    (listings : nat -> list string) resp order :
  (forall i, (i < length names)%nat ->
     i ∈ order /\ body (resp i) = JArr (map JStr (listings i))) ->
  outcome (checkDbExists (inr names)) (answers resp order) =
    Resolved (JArr (map (fun i => JBool (bool_decide (nth i names "" ∈ listings i)))
                        (seq 0 (length names)))).
Proof.
  intros H. rewrite checkDbExists_outcome.
  eapply fan_resolved; [apply checkDbExists_run_fan| |].
  - intros i Hi. by apply H.
  - intros i Hi. unfold check_result.
    rewrite (proj2 (H i Hi)). simpl.
    by rewrite index_from_strings.
Qed.

(** X12. checkDbExists never rejects its promise, whatever the responses
    and their order.  While a list request is unanswered the promise is
    pending, and when the response to one of them has no listing on
    which [indexOf] can be called (as when the transport reports an
    error) the promise stays pending whatever else arrives. *)
Theorem checkDbExists_never_rejects (names : list string) resp order :
  (forall e, outcome (checkDbExists (inr names)) (answers resp order) <> Rejected e) /\
  (forall i, (i < length names)%nat ->
     i ∉ order \/ js_indexOf (body (resp i)) (nth i names "") = Throw TypeError ->
     outcome (checkDbExists (inr names)) (answers resp order) = Pending).
Proof.
  rewrite checkDbExists_outcome.
  pose proof (checkDbExists_run_fan names resp order) as F.
  assert (Hres : forall j e', check_result (nth j names "") (resp j) <> Rejected e').
  { intros j e'. unfold check_result. by destruct (js_indexOf _ _). }
  split.
  - intros e. by eapply fan_never_rejected.
  - intros i Hi Hp.
    eapply (fan_pending _ _ _ _ _ i); [exact F|done| |].
    + destruct Hp as [?|Hp]; [by left|right].
      unfold check_result. by rewrite Hp.
    + intros j _ _ e. apply Hres.
Qed.

Lemma settle_index d o w : index (settle d o w) = index w.
Proof.
  unfold settle, notify_all.
  destruct (defers w !! d) as [[]|]; simpl; try done.
  destruct (joined w); simpl; try done.
  case_bool_decide; try done.
  destruct (aggregate w); try done.
  destruct o; try done.
  simpl. by destruct (collect _ _).
Qed.

Lemma settle_console d o w : console (settle d o w) = console w.
Proof.
  unfold settle, notify_all.
  destruct (defers w !! d) as [[]|]; simpl; try done.
  destruct (joined w); simpl; try done.
  case_bool_decide; try done.
  destruct (aggregate w); try done.
  destruct o; try done.
  simpl. by destruct (collect _ _).
Qed.

Lemma insert_books k resp order : forall hist w,
  fan_inv k KInsert (fun i => insert_result (resp i)) hist w ->
  NoDup order ->
  (forall i, i ∈ order -> (i < k)%nat /\ i ∉ hist) ->
  index (run (answers resp order) w) =
    (index w + Z.of_nat (length (List.filter
       (fun i => negb (truthy (error (resp i)))) order)))%Z /\
  console (run (answers resp order) w) =
    console w ++ map (fun i => error (resp i))
                     (List.filter (fun i => truthy (error (resp i))) order).
Proof.
  induction order as [|i order IH]; intros hist w F Hnd Hin.
  - simpl. rewrite app_nil_r. split; [lia|done].
  - apply NoDup_cons in Hnd as [Hi Hnd].
    destruct (Hin i ltac:(by left)) as [Hik Hih].
    pose proof (fan_step k KInsert resp (fun j => insert_result (resp j))
                  (fun j w' _ => insert_kont_spec resp j w') hist w i F) as F'.
    rewrite run_cons.
    destruct (IH (hist ++ [i]) _ F' Hnd) as [Ix Cs].
    { intros j Hj. split; [by apply Hin; right|].
      intros [?|?%list_elem_of_singleton]%elem_of_app.
      - by apply (proj2 (Hin j ltac:(by right))).
      - congruence. }
    rewrite Ix, Cs. clear Ix Cs IH F'.
    destruct F as (_ & _ & _ & P & _).
    pose proof (P i Hik) as Pi.
    rewrite bool_decide_eq_false_2 in Pi by done. destruct Pi as [Wi _].
    unfold deliver. rewrite Wi. cbn [run_kont List.filter].
    destruct (truthy (error (resp i))); cbn [negb map length].
    + simpl. unfold q_reject. rewrite settle_index, settle_console. simpl.
      split; [done|]. by rewrite <- app_assoc.
    + simpl. unfold q_resolve. rewrite settle_index, settle_console. simpl.
      split; [lia|done].
Qed.

(** X13. The bookkeeping of a batch insert: after the responses to
    distinct inserts have arrived, [index] counts those that succeeded
    and the console holds the error of each that failed, in order of
    arrival. *)
Theorem insert_bookkeeping config dbName b resp order :
  NoDup order ->
  (forall i, i ∈ order -> (i < length (items b))%nat) ->
  let w := run (answers resp order) (snd (into config dbName b)) in
  index w = Z.of_nat (length (List.filter
              (fun i => negb (truthy (error (resp i)))) order)) /\
  console w = map (fun i => error (resp i))
                  (List.filter (fun i => truthy (error (resp i))) order).
Proof.
  intros Hnd Hin w. subst w.
  pose proof (insert_fan config dbName b) as F0.
  apply (fan_inv_res _ _ _ (fun i => insert_result (resp i)) _ _ eq_refl) in F0.
  destruct (insert_books _ resp order [] _ F0 Hnd) as [Ix Cs].
  { intros i Hi. split; [by apply Hin|]. by intros ?%elem_of_nil. }
  rewrite Ix, Cs. rewrite into_world. simpl.
  unfold q_all. simpl.
  destruct (first_rejected _ _); simpl; [done|].
  by destruct (collect _ _).
Qed.

(** ** More on delete by id *)

Lemma deleteDoc_reach_step dbName docId i r w :
  deleteDoc_reach dbName docId w ->
  deleteDoc_reach dbName docId (deliver i r w).
Proof.
  unfold deleteDoc_reach, deliver.
  intros [[Hr [Hw|Hw]]|(rev & Hr & [Hw|Hw])]; rewrite Hw.
  - destruct i as [|i]; simpl; [|by left; split; [|left]].
    destruct (truthy (error r)).
    + left. unfold q_reject.
      rewrite settle_requests, settle_waiting. simpl. split; [done|by right].
    + destruct (get_prop (body r) "_rev") as [rev|e]; simpl.
      * right. exists rev. rewrite Hr. split; [done|by left].
      * left. split; [done|by right].
  - destruct i as [|i]; simpl; by left; split; [|right].
  - destruct i as [|[|i]]; simpl;
      try (by right; exists rev; split; [|left]).
    right. exists rev. unfold reject_or_resolve, q_reject, q_resolve.
    destruct (truthy (error r));
      rewrite settle_requests, settle_waiting; simpl; split; [done|by right|done|by right].
  - destruct i as [|[|i]]; simpl; by right; exists rev; split; [|right].
Qed.

(** X14. deleteDoc touches one document only: under every schedule, with
    any responses, it has issued its get and at most one destroy, the
    destroy being for the same document in the same database.  When the
    get is answered with neither an error nor a body, no destroy is
    issued and the promise stays pending. *)
Theorem deleteDoc_touches_only config docId dbName :
  let fetch := DocGet dbName docId (Some (JObj [("revs_info", JBool true)])) in
  (forall sched,
     issued (deleteDoc_from config docId dbName) sched = [fetch] \/
     exists rev, issued (deleteDoc_from config docId dbName) sched =
                   [fetch; DocDestroy dbName docId rev]) /\
  (forall r sched,
     truthy (error r) = false -> nullish (body r) = true ->
     issued (deleteDoc_from config docId dbName) ((0%nat, r) :: sched) = [fetch] /\
     outcome (deleteDoc_from config docId dbName) ((0%nat, r) :: sched) = Pending).
Proof.
  intros fetch. split.
  - intros sched. unfold issued.
    assert (R : deleteDoc_reach dbName docId
                  (run sched (snd (deleteDoc_from config docId dbName)))).
    { generalize (snd (deleteDoc_from config docId dbName)),
        (ltac:(left; split; [done|by left]) :
           deleteDoc_reach dbName docId (snd (deleteDoc_from config docId dbName))).
      induction sched as [|[i r] sched IH]; intros w Hw; simpl; [done|].
      apply IH. by apply deleteDoc_reach_step. }
    destruct R as [[Hr _]|(rev & Hr & _)]; [by left|right; by exists rev].
  - intros r sched He Hb. unfold issued, outcome. simpl.
    unfold deliver. simpl. rewrite He.
    assert (get_prop (body r) "_rev" = Throw TypeError) as ->
      by (by destruct (body r)).
    rewrite run_idle by (repeat constructor). done.
Qed.

(** ** More on design documents *)

Lemma design_view_throws vm views name :
  has_prop name vm = true ->
  nullish (lookup_prop name vm) = true ->
  design_view (JObj vm) views name = Throw TypeError.
Proof.
  intros Ho Hn. unfold design_view. rewrite get_prop_own by done. simpl.
  by destruct (lookup_prop name vm).
Qed.

Lemma design_views_throws vm keys : forall views,
  has_prop "hasOwnProperty" vm = false ->
  (forall name, name ∈ keys -> has_prop name vm = true) ->
  (exists name, name ∈ keys /\ nullish (lookup_prop name vm) = true) ->
  design_views (JObj vm) keys views = Throw TypeError.
Proof.
  induction keys as [|k keys IH]; intros views Hown Hkeys (name & Hin & Hn).
  - by apply elem_of_nil in Hin.
  - cbn [design_views].
    pose proof (Hkeys k ltac:(by left)) as Hk.
    rewrite has_own_property_builtin by done. rewrite Hk. simpl.
    destruct (nullish (lookup_prop k vm)) eqn:Hkn.
    + by rewrite design_view_throws.
    + destruct (design_view_entry vm views k Hk Hkn) as (entry & -> & _). simpl.
      apply IH; [done| |].
      * intros n Hn'. apply Hkeys. by right.
      * exists name. split; [|done].
        apply elem_of_cons in Hin as [->|?]; [congruence|done].
Qed.

Lemma nullish_key_dec (vm : list (string * JValue)) (keys : list string) :
  (exists name, name ∈ keys /\ nullish (lookup_prop name vm) = true) \/
  (forall name, name ∈ keys -> nullish (lookup_prop name vm) = false).
Proof.
  induction keys as [|k keys IH].
  - right. by intros name ?%elem_of_nil.
  - destruct (nullish (lookup_prop k vm)) eqn:Hk.
    + left. exists k. split; [by left|done].
    + destruct IH as [(name & Hin & Hn)|Hall].
      * left. exists name. split; [by right|done].
      * right. intros name [->|?]%elem_of_cons; [done|by apply Hall].
Qed.

(** X15. addDesign throws, before any request is issued, when the
    collection has a property of its own named hasOwnProperty that is
    not a function; on a collection without one, it throws exactly when
    one of the supplied view definitions is [undefined] or [null]. *)
Theorem addDesign_throws_iff config designName
    (viewMaps : list (string * JValue)) dbName :
  (has_prop "hasOwnProperty" viewMaps = true ->
   (forall f, lookup_prop "hasOwnProperty" viewMaps <> JBuiltin f) ->
   addDesign_to config designName (JObj viewMaps) dbName = Throw TypeError) /\
  (has_prop "hasOwnProperty" viewMaps = false ->
   (addDesign_to config designName (JObj viewMaps) dbName = Throw TypeError <->
    exists name, name ∈ map fst viewMaps /\
                 nullish (lookup_prop name viewMaps) = true)).
Proof.
  unfold addDesign_to. simpl. split.
  - intros Hown Hf.
    destruct viewMaps as [|[k v] vm]; [done|].
    cbn [map fst design_views].
    by rewrite has_own_property_shadowed.
  - intros Hown. split.
    + intros H.
      destruct (nullish_key_dec viewMaps (map fst viewMaps)) as [?|Hall]; [done|].
      destruct (design_views_spec viewMaps (map fst viewMaps) [] Hown)
        as (views & Hd & _).
      { intros name Hname. split; [by apply has_prop_in|by apply Hall]. }
      by rewrite Hd in H.
    + intros H. rewrite design_views_throws; [done..| |done].
      intros name Hname. by apply has_prop_in.
Qed.

(** ** More on extractIds *)

Lemma extractIds_loop_map f data : forall n i store,
  (i + n <= length data)%nat ->
  extractIds_loop n data f i store =
    let* out := cmapM (row_value f) (take n (drop i data)) in
    Normal (store ++ out).
Proof.
  induction n as [|n IH]; intros i store Hlen.
  - simpl. by rewrite app_nil_r.
  - destruct (lookup_lt_is_Some_2 data i ltac:(lia)) as [row Hrow].
    cbn [extractIds_loop].
    rewrite (nth_lookup_Some _ _ _ _ Hrow).
    rewrite (drop_S _ _ _ Hrow). cbn [take cmapM].
    fold (row_value f row).
    destruct (row_value f row) as [v|e]; simpl; [|done].
    rewrite IH by lia.
    destruct (cmapM _ _); simpl; [|done].
    by rewrite <- app_assoc.
Qed.

Lemma extractIds_map data fieldName :
  extractIds data fieldName = cmapM (row_value (field_or_id fieldName)) data.
Proof.
  unfold extractIds. rewrite extractIds_loop_map by (simpl; lia).
  rewrite drop_0, firstn_all.
  by destruct (cmapM _ _).
Qed.

Lemma cmapM_app {A B} (f : A -> Completion B) l1 l2 :
  cmapM f (l1 ++ l2) =
    let* a := cmapM f l1 in
    let* b := cmapM f l2 in
    Normal (a ++ b).
Proof.
  induction l1 as [|x l1 IH]; simpl.
  - by destruct (cmapM f l2).
  - destruct (f x); simpl; [|done]. rewrite IH.
    destruct (cmapM f l1); simpl; [|done].
    by destruct (cmapM f l2).
Qed.

Lemma row_value_throws f row :
  row_value f row = Throw TypeError <-> row_ok f row = false.
Proof.
  unfold row_value, row_ok.
  destruct (get_prop row f) as [a|[]]; simpl; [|done].
  destruct (truthy a); simpl; [done|].
  destruct (get_prop row "value") as [w|[]]; simpl; [|done].
  destruct (nullish w) eqn:Hw; simpl.
  - split; [done|]. intros _. by destruct w.
  - destruct (get_prop_normal w f Hw) as [v ->]. done.
Qed.

Lemma cmapM_throws {A B} (f : A -> Completion B) (l : list A) :
  cmapM f l = Throw TypeError <-> exists x, x ∈ l /\ f x = Throw TypeError.
Proof.
  induction l as [|x l IH]; simpl.
  - split; [done|]. by intros (y & ?%elem_of_nil & _).
  - destruct (f x) as [y|[]] eqn:Hx; simpl.
    + destruct (cmapM f l) as [ys|[]]; simpl.
      * split; [done|]. intros (z & Hz & Hfz).
        apply elem_of_cons in Hz as [->|Hz]; [congruence|].
        assert (Normal ys = Throw TypeError) by (apply IH; eauto). done.
      * split; [|done]. intros _.
        destruct (proj1 IH eq_refl) as (z & Hz & Hfz).
        exists z. split; [by right|done].
    + split; [|done]. intros _. exists x. split; [by left|done].
Qed.

(** X16. extractIds throws exactly when some row has neither a truthy
    [fieldName] nor a [value] that can be read: one such row anywhere in
    the array loses the identifiers of all the others. *)
Theorem extractIds_throws_iff data fieldName :
  extractIds data fieldName = Throw TypeError <->
  exists row, row ∈ data /\ row_ok (field_or_id fieldName) row = false.
Proof.
  rewrite extractIds_map, cmapM_throws.
  split; intros (row & Hin & H); exists row; (split; [done|]);
    by apply row_value_throws.
Qed.

(** X17. extractIds works row by row: on the concatenation of two arrays
    it returns the identifiers of the first followed by those of the
    second, and throws when it throws on either. *)
Theorem extractIds_app d1 d2 fieldName :
  extractIds (d1 ++ d2) fieldName =
    let* a := extractIds d1 fieldName in
    let* b := extractIds d2 fieldName in
    Normal (a ++ b).
Proof. rewrite !extractIds_map. apply cmapM_app. Qed.

(** X18. On rows that each carry a non-empty identifier in their own
    "id" property, extractIds without a field name returns exactly those
    identifiers, in order, whatever else the rows hold. *)
Theorem extractIds_ids rows ids :
  Forall2 has_id rows ids ->
  extractIds rows None = Normal (map JStr ids).
Proof.
  rewrite extractIds_map. simpl.
  induction 1 as [|row id rows ids (ps & -> & Hid & Hne) _ IH]; [done|].
  cbn [cmapM map]. unfold row_value at 1.
  rewrite get_prop_own by (apply lookup_has; by rewrite Hid).
  rewrite Hid. simpl.
  rewrite (proj2 (String.eqb_neq id "")) by done. simpl.
  by rewrite IH.
Qed.

End Wrapper.

(** ** Examples

    The theorems above hold on every engine; the examples are evaluated
    on the sample one. *)

#[export] Existing Instance sample_engine.

Lemma insert_all_or_nothing_witness :
  outcome (into no_prefix "people" (insert (JArr [jeff; annie])))
          (answers all_saved [1; 0]%nat)
    = Resolved (JArr [JNum 0; JNum 1]) /\
  outcome (into no_prefix "people" (insert (JArr [jeff; annie])))
          (answers first_conflicts [1; 0]%nat)
    = Rejected (JStr "conflict").
Proof.
  split.
  - apply (proj1 (proj2 (insert_all_or_nothing no_prefix "people"
                           (insert (JArr [jeff; annie])) all_saved [1; 0]%nat))).
    intros i Hi. simpl in Hi. split; [|reflexivity].
    destruct i as [|[|i]]; [repeat constructor..|lia].
  - apply (proj1 (proj2 (proj2 (insert_all_or_nothing no_prefix "people"
                           (insert (JArr [jeff; annie])) first_conflicts
                           [1; 0]%nat))) [1%nat] 0%nat []).
    + reflexivity.
    + simpl. lia.
    + reflexivity.
    + intros j Hj _. apply list_elem_of_singleton in Hj. subst j. reflexivity.
Defined.


Lemma withKey_passes_key_witness :
  issued (into test_prefix "people" (withKey (JStr "name") (insert (JArr [jeff; annie]))))
         (answers all_saved [1; 0]%nat) =
    [DocInsert "test_people" jeff (Some (JStr "name"));
     DocInsert "test_people" annie (Some (JStr "name"))].
Proof.
  apply (withKey_passes_key test_prefix (JStr "name")
           (insert (JArr [jeff; annie])) "people" all_saved [1; 0]%nat).
  reflexivity.
Defined.


(** With [withKey("name")] the insert of jeff does not carry "jeff",
    the value of its name field, as its document name. *)
Lemma key_from_field_fails :
  ~ key_from_field no_prefix "name" [jeff; annie] "people".
Proof.
  intros H. destruct (H 0%nat jeff eq_refl) as (v & Hv & Hr).
  vm_compute in Hv, Hr. congruence.
Qed.


Lemma insert_single_as_batch_witness :
  insert jeff = insert (JArr [jeff]) /\
  outcome (into no_prefix "people" (insert jeff)) [(0%nat, ok (JStr "saved"))] =
    Resolved (JArr [JStr "saved"]).
Proof.
  destruct (insert_single_as_batch jeff no_prefix "people" JUndefined []
              (ok (JStr "saved")) eq_refl) as (H1 & _ & _ & _ & H5).
  split; [exact H1|exact H5].
Defined.


Lemma checkDbExists_membership_witness :
  outcome (checkDbExists (inr ["a"; "b"; "c"]))
          (answers (fun _ => ok (JArr [JStr "a"; JStr "c"])) [2; 0; 1]%nat) =
    Resolved (JArr [JBool true; JBool false; JBool true]).
Proof.
  apply (proj1 (checkDbExists_membership ["a"; "b"; "c"] ["a"; "c"]
                  (fun _ => ok (JArr [JStr "a"; JStr "c"])) [2; 0; 1]%nat
                  ltac:(intros i Hi; simpl in Hi; split; [|reflexivity];
                        destruct i as [|[|[|i]]]; [repeat constructor..|lia]))).
Defined.


Lemma deleteDoc_two_steps_witness :
  issued (deleteDoc_from test_prefix "jeff" "people")
         (answers (fun i => match i with
                            | O => ok (JObj [("_id", JStr "jeff"); ("_rev", JStr "3-abc")])
                            | S _ => ok (JObj [("ok", JBool true)])
                            end) [0; 1]%nat)
    = [DocGet "people" "jeff" (Some (JObj [("revs_info", JBool true)]));
       DocDestroy "people" "jeff" (JStr "3-abc")] /\
  issued (deleteDoc_from test_prefix "jeff" "people")
         (answers (fun _ => failed (JStr "not_found")) [1; 0; 1]%nat)
    = [DocGet "people" "jeff" (Some (JObj [("revs_info", JBool true)]))].
Proof.
  split.
  - apply (proj2 (proj2 (deleteDoc_two_steps test_prefix "jeff" "people"
             (fun i => match i with
                       | O => ok (JObj [("_id", JStr "jeff"); ("_rev", JStr "3-abc")])
                       | S _ => ok (JObj [("ok", JBool true)])
                       end) [0; 1]%nat))
             (JStr "3-abc") [] [1%nat] eq_refl eq_refl eq_refl).
    intros H. inversion H.
  - apply (proj1 (proj2 (deleteDoc_two_steps test_prefix "jeff" "people"
             (fun _ => failed (JStr "not_found")) [1; 0; 1]%nat))).
    reflexivity.
Defined.


(** C10 (as stated): on a view row whose [value] is [null] and that has
    no "rev", extractIds throws and returns no array. *)
Lemma extractIds_returns_fails :
  ~ extractIds_returns
      [JObj [("id", JStr "jeff"); ("key", JStr "jeff"); ("value", JNull)]]
      (Some "rev").
Proof. intros (store & H & _). vm_compute in H. discriminate. Qed.


Lemma extractIds_rows_witness :
  extractIds_returns
    [JObj [("id", JStr "jeff"); ("key", JStr "jeff"); ("value", JNull)];
     JObj [("key", JStr "annie"); ("value", JObj [("id", JStr "annie")])]]
    None.
Proof.
  apply (proj1 (extractIds_rows
    [JObj [("id", JStr "jeff"); ("key", JStr "jeff"); ("value", JNull)];
     JObj [("key", JStr "annie"); ("value", JObj [("id", JStr "annie")])]]
    None
    ltac:(intros row Hrow;
          apply elem_of_cons in Hrow as [->|Hrow]; [reflexivity|];
          apply list_elem_of_singleton in Hrow as ->; reflexivity))).
Defined.


Lemma getDbName_resolves_witness :
  getDbName test_prefix "people" = "test_" +:+ "people" /\
  getDbName no_prefix "people" = "people".
Proof.
  split.
  - apply (proj1 (getDbName_resolves test_prefix) "test_" "people" eq_refl).
    discriminate.
  - apply (proj1 (proj2 (getDbName_resolves no_prefix)) "people").
    left. reflexivity.
Defined.


Lemma outcome_final_witness :
  outcome (into no_prefix "people" (insert (JArr [jeff; annie])))
          ([(0%nat, failed (JStr "conflict"))] ++ [(1%nat, ok (JStr "saved"))])
    = Rejected (JStr "conflict").
Proof.
  apply (outcome_final (into no_prefix "people" (insert (JArr [jeff; annie])))
           [(0%nat, failed (JStr "conflict"))] [(1%nat, ok (JStr "saved"))]).
  discriminate.
Defined.


Lemma addDesign_to_outcome_witness :
  exists op,
    addDesign_to no_prefix "people"
      (JObj [("byName", JObj [("map", JStr "function (doc) { emit(doc.name); }")])])
      "people" = Normal op /\
    outcome op [(0%nat, failed (JStr "conflict")); (0%nat, ok (JStr "late"))] =
      Rejected (JStr "conflict").
Proof.
  eexists. split; [reflexivity|].
  apply (addDesign_to_outcome no_prefix "people"
           (JObj [("byName", JObj [("map", JStr "function (doc) { emit(doc.name); }")])])
           "people" _ [(0%nat, failed (JStr "conflict")); (0%nat, ok (JStr "late"))]).
  reflexivity.
Defined.


Lemma init_location_witness :
  init_dbLocation JUndefined = Throw TypeError /\
  truthy (JStr "http://localhost:5984") = true.
Proof.
  split.
  - apply (proj1 (init_location JUndefined)). reflexivity.
  - apply (proj2 (init_location (JObj [])) (JStr "http://localhost:5984")).
    reflexivity.
Defined.


Lemma insert_waits_for_all_witness :
  outcome (into no_prefix "people" (insert (JArr [jeff; annie])))
          (answers all_saved [1%nat]) = Pending.
Proof.
  apply (insert_waits_for_all no_prefix "people" (insert (JArr [jeff; annie]))
           all_saved [1%nat] 0%nat).
  - simpl. lia.
  - intros H. apply list_elem_of_singleton in H. discriminate.
  - intros j _ _. destruct j; reflexivity.
Defined.


Lemma checkDbExists_own_listing_witness :
  outcome (checkDbExists (inr ["people"; "people"]))
          (answers (fun i => match i with
                             | O => ok (JArr [JStr "people"])
                             | S _ => ok (JArr [])
                             end) [0; 1]%nat) =
    Resolved (JArr [JBool true; JBool false]).
Proof.
  apply (checkDbExists_own_listing ["people"; "people"]
           (fun i => match i with O => ["people"] | S _ => [] end)
           (fun i => match i with
                     | O => ok (JArr [JStr "people"])
                     | S _ => ok (JArr [])
                     end) [0; 1]%nat).
  intros i Hi. simpl in Hi.
  destruct i as [|[|i]]; [split; [repeat constructor|reflexivity]..|lia].
Defined.


Lemma checkDbExists_never_rejects_witness :
  outcome (checkDbExists (inr ["a"; "b"]))
          (answers (fun i => match i with
                             | O => failed (JStr "ECONNREFUSED")
                             | S _ => ok (JArr [JStr "b"])
                             end) [1; 0]%nat) = Pending.
Proof.
  apply (proj2 (checkDbExists_never_rejects ["a"; "b"]
                  (fun i => match i with
                            | O => failed (JStr "ECONNREFUSED")
                            | S _ => ok (JArr [JStr "b"])
                            end) [1; 0]%nat) 0%nat).
  - simpl. lia.
  - right. reflexivity.
Defined.


Lemma insert_bookkeeping_witness :
  let w := run (answers first_conflicts [1; 0]%nat)
               (snd (into no_prefix "people" (insert (JArr [jeff; annie])))) in
  index w = 1%Z /\ console w = [JStr "conflict"].
Proof.
  apply (insert_bookkeeping no_prefix "people" (insert (JArr [jeff; annie]))
           first_conflicts [1; 0]%nat).
  - repeat constructor.
    + intros H. apply list_elem_of_singleton in H. discriminate.
    + intros H. inversion H.
  - intros i Hi. simpl.
    apply elem_of_cons in Hi as [->|Hi]; [lia|].
    apply list_elem_of_singleton in Hi as ->. lia.
Defined.


Lemma deleteDoc_touches_only_witness :
  issued (deleteDoc_from no_prefix "jeff" "people")
         [(0%nat, mkResponse JNull JUndefined); (1%nat, ok (JStr "gone"))] =
    [DocGet "people" "jeff" (Some (JObj [("revs_info", JBool true)]))].
Proof.
  apply (proj2 (deleteDoc_touches_only no_prefix "jeff" "people")
           (mkResponse JNull JUndefined) [(1%nat, ok (JStr "gone"))]);
    reflexivity.
Defined.


Lemma extractIds_throws_iff_witness :
  extractIds [JObj [("id", JStr "jeff")]; JObj [("key", JStr "annie")]] None
    = Throw TypeError.
Proof.
  apply (proj2 (extractIds_throws_iff
                  [JObj [("id", JStr "jeff")]; JObj [("key", JStr "annie")]] None)).
  exists (JObj [("key", JStr "annie")]).
  split; [repeat constructor|reflexivity].
Defined.


Lemma extractIds_ids_witness :
  extractIds
    [JObj [("id", JStr "jeff"); ("key", JStr "jeff"); ("value", JNull)];
     JObj [("id", JStr "annie"); ("key", JStr "annie"); ("value", JNull)]]
    None = Normal [JStr "jeff"; JStr "annie"].
Proof.
  apply (extractIds_ids
           [JObj [("id", JStr "jeff"); ("key", JStr "jeff"); ("value", JNull)];
            JObj [("id", JStr "annie"); ("key", JStr "annie"); ("value", JNull)]]
           ["jeff"; "annie"]).
  repeat constructor; eexists; (split; [reflexivity|]);
    (split; [reflexivity|discriminate]).
Defined.

(** C9 (as stated): a definition that supplies an empty reduce gets no
    [reduce] field, and a collection with a view named hasOwnProperty
    makes addDesign throw instead of issuing its request. *)
Lemma addDesign_as_stated_fails :
  ~ addDesign_as_stated no_prefix "people"
      [("byName", JObj [("map", JStr "function (doc) { emit(doc.name); }");
                        ("reduce", JStr "")])]
      "people" /\
  ~ addDesign_as_stated no_prefix "people"
      [("hasOwnProperty", JObj [("map", JStr "function (doc) { emit(doc.name); }")])]
      "people".
Proof.
  split.
  - intros (views & w & H & Hreq & Hall).
    vm_compute in H. injection H as <-.
    vm_compute in Hreq. injection Hreq as <-.
    destruct (Hall "byName" _ ltac:(repeat constructor)) as (ps & Hps & _ & Hr).
    vm_compute in Hps. injection Hps as <-. vm_compute in Hr. discriminate.
  - intros (views & w & H & _). vm_compute in H. discriminate.
Qed.

Lemma addDesign_payload_witness :
  exists views w,
    addDesign_to no_prefix "people"
      (JObj [("byName", JObj [("map", JStr "function (doc) { emit(doc.name); }")]);
             ("count", JObj [("map", JStr "function (doc) { emit(null, 1); }");
                             ("reduce", JStr "_sum")])])
      "people" = Normal (PDefer 0, w) /\
    requests w =
      [DocInsert "people"
         (JObj [("language", JStr "javascript"); ("views", JObj views)])
         (Some (JStr "_design/people"))] /\
    has_prop "reduce" (match lookup_prop "byName" views with
                       | JObj ps => ps
                       | _ => []
                       end) = false /\
    has_prop "reduce" (match lookup_prop "count" views with
                       | JObj ps => ps
                       | _ => []
                       end) = true.
Proof.
  destruct (addDesign_payload no_prefix "people"
              [("byName", JObj [("map", JStr "function (doc) { emit(doc.name); }")]);
               ("count", JObj [("map", JStr "function (doc) { emit(null, 1); }");
                               ("reduce", JStr "_sum")])]
              "people" [])
    as (views & w & H1 & H2 & H3 & H4).
  { intros name Hname. simpl in Hname.
    apply elem_of_cons in Hname as [->|Hname]; [reflexivity|].
    apply list_elem_of_singleton in Hname as ->. reflexivity. }
  { reflexivity. }
  exists views, w. split; [exact H1|]. split; [exact H2|].
  destruct (H4 "byName" ltac:(repeat constructor) ltac:(discriminate))
    as (m1 & r1 & ps1 & _ & Hr1 & -> & _ & _ & Hp1 & _).
  destruct (H4 "count" ltac:(repeat constructor) ltac:(discriminate))
    as (m2 & r2 & ps2 & _ & Hr2 & -> & _ & _ & Hp2 & _).
  vm_compute in Hr1, Hr2. injection Hr1 as <-. injection Hr2 as <-.
  split; [exact Hp1|exact Hp2].
Defined.

Lemma addDesign_throws_iff_witness :
  addDesign_to no_prefix "people"
    (JObj [("byName", JObj [("map", JStr "function (doc) { emit(doc.name); }")]);
           ("broken", JNull)])
    "people" = Throw TypeError /\
  addDesign_to no_prefix "people"
    (JObj [("hasOwnProperty", JObj [("map", JStr "function (doc) { emit(doc.name); }")])])
    "people" = Throw TypeError.
Proof.
  split.
  - apply (proj2 (proj2 (addDesign_throws_iff no_prefix "people"
                    [("byName", JObj [("map", JStr "function (doc) { emit(doc.name); }")]);
                     ("broken", JNull)] "people") eq_refl)).
    exists "broken". split; [repeat constructor|reflexivity].
  - apply (proj1 (addDesign_throws_iff no_prefix "people"
                    [("hasOwnProperty", JObj [("map", JStr "function (doc) { emit(doc.name); }")])]
                    "people")).
    + reflexivity.
    + intros f. discriminate.
Defined.
